(** * Fantastic Films: project store, timeline and gallery

    A shallow embedding of the state handlers of the application shell
    ([App]), of the timeline editor ([TimelineEditor], [VideoCard]) and of
    the frame processor ([FrameProcessor]), followed by the properties of
    the project / timeline state model and of the frame-capture requests.

    Conventions of the embedding.
    - A JavaScript string is a [string]; every [ascii] stands for one code
      unit, so the model covers strings whose code units are below 256.
    - [Date.now()] readings, [crypto.randomUUID()] results and the URLs
      minted by [URL.createObjectURL] come from the environment: a handler
      takes them as arguments, in the order in which it asks for them.
      Milliseconds since the epoch are integers ([Z]).
    - [confirm(...)] dialogs are answered by the environment: a [bool].
    - Media times ([duration], [currentTime]) are binary64 numbers
      ([float], the kernel's primitive floats).
    - A handler runs against the state of the latest render; React applies
      the functional updates it queues in order, so a handler is a function
      from state to state. *)

From Stdlib Require Import Ascii PrimFloat.
From Corelib Require SpecFloat FloatOps FloatAxioms.
From stdpp Require Import gmap strings list pretty.

Local Open Scope Z_scope.
#[local] Set Warnings "-inexact-float,-clear-no-such-hyp".

(** ** JavaScript primitives used by the components *)

Module JS.

Definition chars (s : string) : list ascii := String.list_ascii_of_string s.
Definition str (l : list ascii) : string := String.string_of_list_ascii l.

(** [a || b] on strings: the empty string is falsy. *)
Definition or_else (a b : string) : string :=
  if decide (a = "") then b else a.

(** [!x] for [x : string | null]: [null] and the empty string are falsy. *)
Definition falsy (x : option string) : bool :=
  match x with
  | None => true
  | Some s => bool_decide (s = "")
  end.

(** [s.startsWith(p)] *)
Definition startsWith (p s : string) : bool := String.prefix p s.

(** [s.lastIndexOf(c)] for a one-character needle: the index of the last
    occurrence, or -1. *)
Fixpoint lastIndexOf_from (c : ascii) (l : list ascii) (i acc : Z) : Z :=
  match l with
  | [] => acc
  | a :: l' =>
      lastIndexOf_from c l' (i + 1) (if decide (a = c) then i else acc)
  end.

Definition lastIndexOf (c : ascii) (s : string) : Z :=
  lastIndexOf_from c (chars s) 0 (-1).

Definition clamp (len x : Z) : Z := Z.min (Z.max x 0) len.

(** [s.substring(start, end)]: both indices are clamped to [0, length],
    and swapped when [start > end]. *)
Definition substring (start end_ : Z) (s : string) : string :=
  let len := Z.of_nat (length (chars s)) in
  let a := clamp len start in
  let b := clamp len end_ in
  let lo := Z.min a b in
  let hi := Z.max a b in
  str (take (Z.to_nat (hi - lo)) (drop (Z.to_nat lo) (chars s))).

(** [s.slice(start, end)]: a negative index counts from the end; no
    swapping, an empty range gives the empty string. *)
Definition slice (start end_ : Z) (s : string) : string :=
  let len := Z.of_nat (length (chars s)) in
  let rel x := if decide (x < 0) then Z.max (len + x) 0 else Z.min x len in
  let lo := rel start in
  let hi := rel end_ in
  str (take (Z.to_nat (hi - lo)) (drop (Z.to_nat lo) (chars s))).

(** [s.split(sep)] for a one-character separator. *)
Fixpoint split_from (sep : ascii) (l cur : list ascii) : list string :=
  match l with
  | [] => [str (rev cur)]
  | a :: l' =>
      if decide (a = sep) then str (rev cur) :: split_from sep l' []
      else split_from sep l' (a :: cur)
  end.

Definition split (sep : ascii) (s : string) : list string :=
  split_from sep (chars s) [].

(** White space and line terminators among the code units below 256:
    TAB, LF, VT, FF, CR, SP and NBSP. *)
Definition isWhiteSpace (a : ascii) : bool :=
  let n := nat_of_ascii a in
  bool_decide (n ∈ [9; 10; 11; 12; 13; 32; 160]%nat).

Fixpoint dropWhile {A} (f : A → bool) (l : list A) : list A :=
  match l with
  | [] => []
  | a :: l' => if f a then dropWhile f l' else l
  end.

(** [s.trim()] *)
Definition trim (s : string) : string :=
  str (rev (dropWhile isWhiteSpace (rev (dropWhile isWhiteSpace (chars s))))).

Definition between (lo hi : nat) (a : ascii) : bool :=
  let n := nat_of_ascii a in
  bool_decide (lo ≤ n)%nat && bool_decide (n ≤ hi)%nat.

Definition isDigit : ascii → bool := between 48 57.
Definition isUpper : ascii → bool := between 65 90.
Definition isLower : ascii → bool := between 97 122.

Definition toLowerCase_char (a : ascii) : ascii :=
  if isUpper a then ascii_of_nat (nat_of_ascii a + 32) else a.

(** [s.toLowerCase()] on the letters A-Z. *)
Definition toLowerCase (s : string) : string :=
  str (toLowerCase_char <$> chars s).

(** [s.replace(/[^a-z0-9]/gi, '_')] *)
Definition replaceNonAlnum (s : string) : string :=
  str ((λ a, if isDigit a || isUpper a || isLower a then a else "_"%char)
         <$> chars s).

(** [Set<string>]: the elements in insertion order, without repetition. *)
Module StrSet.
Abbreviation t := (list string).
Definition wf (s : t) : Prop := NoDup s.
Definition empty : t := [].
Definition has (x : string) (s : t) : bool := bool_decide (x ∈ s).
Definition add (x : string) (s : t) : t := if has x s then s else s ++ [x].
Definition delete (x : string) (s : t) : t :=
  filter (λ y, y ≠ x) s.
Definition size (s : t) : nat := length s.
(** [new Set(iterable)] *)
Definition of_list (l : list string) : t := foldl (λ s x, add x s) empty l.
End StrSet.

(** An array that may hold [undefined] ([None]), read and written by
    index as JavaScript does: a read out of range gives [undefined], a
    write out of range extends the array. *)
Definition get {A} (i : nat) (l : list (option A)) : option A :=
  mjoin (l !! i).

Definition set {A} (i : nat) (v : option A) (l : list (option A))
  : list (option A) :=
  if decide (i < length l)%nat then <[i := v]> l
  else l ++ replicate (i - length l) None ++ [v].

(** The array as a list of defined values, when no cell is [undefined]. *)
Fixpoint defined {A} (l : list (option A)) : option (list A) :=
  match l with
  | [] => Some []
  | Some a :: l' => cons a <$> defined l'
  | None :: _ => None
  end.

(** [Math.max(a, b)]: NaN when either argument is NaN; +0 is larger than
    -0. *)
Definition Math_max (a b : float) : float :=
  if is_nan a || is_nan b then nan
  else if ltb a b then b
  else if ltb b a then a
  else if get_sign a then b else a.

(** [Math.min(a, b)]: NaN when either argument is NaN; -0 is smaller than
    +0. *)
Definition Math_min (a b : float) : float :=
  if is_nan a || is_nan b then nan
  else if ltb a b then a
  else if ltb b a then b
  else if get_sign a then a else b.

End JS.

(** ** Data model *)

Inductive GalleryType := inicio | final | manual.

Inductive AspectRatio := ratio_16_9 | ratio_9_16 | ratio_1_1.

Inductive View := timeline | gallery.

(** The part of a [File] the components read. *)
Module File.
Record t := mk { name : string; type : string }.
End File.

Module Crop.
Record t := mk { scale : float; x : float; y : float }.
End Crop.

Module VideoItem.
Record t := mk {
  id : string;
  file : File.t;
  url : string;
  name : string;
  crop : option Crop.t
}.
End VideoItem.

Module GalleryItem.
Record t := mk {
  id : string;
  src : string;
  type : GalleryType;
  videoName : string;
  createdAt : Z
}.
End GalleryItem.

Module Project.
Record t := mk {
  id : string;
  name : string;
  aspectRatio : AspectRatio;
  createdAt : Z;
  lastModified : Z;
  videos : list VideoItem.t;
  galleryItems : list GalleryItem.t
}.

Definition with_videos (vs : list VideoItem.t) (now : Z) (p : t) : t :=
  mk (id p) (name p) (aspectRatio p) (createdAt p) now vs (galleryItems p).

Definition with_gallery_at (gs : list GalleryItem.t) (now : Z) (p : t) : t :=
  mk (id p) (name p) (aspectRatio p) (createdAt p) now (videos p) gs.

Definition with_gallery (gs : list GalleryItem.t) (p : t) : t :=
  mk (id p) (name p) (aspectRatio p) (createdAt p) (lastModified p)
     (videos p) gs.
End Project.


(** ** The application shell ([App]) *)

Module App.

(** The React state of [App], together with the browser's registry of live
    object URLs ([URL.createObjectURL] adds a URL, [URL.revokeObjectURL]
    releases it). *)
Record State := mkState {
  projects : list Project.t;
  activeProjectId : option string;
  activeProjectDuration : float;
  isCreatingProject : bool;
  newProjectName : string;
  newProjectRatio : AspectRatio;
  currentView : View;
  selectedGalleryIds : JS.StrSet.t;
  isZipping : bool;
  objectURLs : gset string
}.

Definition initial : State :=
  mkState [] None 0%float false "" ratio_16_9 timeline JS.StrSet.empty false ∅.

Definition setProjects (f : list Project.t → list Project.t) (st : State) :=
  mkState (f (projects st)) (activeProjectId st) (activeProjectDuration st)
    (isCreatingProject st) (newProjectName st) (newProjectRatio st)
    (currentView st) (selectedGalleryIds st) (isZipping st) (objectURLs st).

Definition setActiveProjectId (a : option string) (st : State) :=
  mkState (projects st) a (activeProjectDuration st)
    (isCreatingProject st) (newProjectName st) (newProjectRatio st)
    (currentView st) (selectedGalleryIds st) (isZipping st) (objectURLs st).

Definition setActiveProjectDuration (d : float) (st : State) :=
  mkState (projects st) (activeProjectId st) d
    (isCreatingProject st) (newProjectName st) (newProjectRatio st)
    (currentView st) (selectedGalleryIds st) (isZipping st) (objectURLs st).

Definition setIsCreatingProject (b : bool) (st : State) :=
  mkState (projects st) (activeProjectId st) (activeProjectDuration st)
    b (newProjectName st) (newProjectRatio st)
    (currentView st) (selectedGalleryIds st) (isZipping st) (objectURLs st).

Definition setNewProjectName (s : string) (st : State) :=
  mkState (projects st) (activeProjectId st) (activeProjectDuration st)
    (isCreatingProject st) s (newProjectRatio st)
    (currentView st) (selectedGalleryIds st) (isZipping st) (objectURLs st).

Definition setNewProjectRatio (r : AspectRatio) (st : State) :=
  mkState (projects st) (activeProjectId st) (activeProjectDuration st)
    (isCreatingProject st) (newProjectName st) r
    (currentView st) (selectedGalleryIds st) (isZipping st) (objectURLs st).

Definition setCurrentView (v : View) (st : State) :=
  mkState (projects st) (activeProjectId st) (activeProjectDuration st)
    (isCreatingProject st) (newProjectName st) (newProjectRatio st)
    v (selectedGalleryIds st) (isZipping st) (objectURLs st).

Definition setSelectedGalleryIds (f : JS.StrSet.t → JS.StrSet.t) (st : State) :=
  mkState (projects st) (activeProjectId st) (activeProjectDuration st)
    (isCreatingProject st) (newProjectName st) (newProjectRatio st)
    (currentView st) (f (selectedGalleryIds st)) (isZipping st) (objectURLs st).

Definition setIsZipping (b : bool) (st : State) :=
  mkState (projects st) (activeProjectId st) (activeProjectDuration st)
    (isCreatingProject st) (newProjectName st) (newProjectRatio st)
    (currentView st) (selectedGalleryIds st) b (objectURLs st).

Definition setObjectURLs (f : gset string → gset string) (st : State) :=
  mkState (projects st) (activeProjectId st) (activeProjectDuration st)
    (isCreatingProject st) (newProjectName st) (newProjectRatio st)
    (currentView st) (selectedGalleryIds st) (isZipping st) (f (objectURLs st)).

(** [URL.revokeObjectURL(url)] *)
Definition revokeObjectURL (url : string) (urls : gset string) : gset string :=
  urls ∖ {[url]}.

(** [URL.createObjectURL(file)], the environment having minted [url]. *)
Definition createObjectURL (url : string) (urls : gset string) : gset string :=
  urls ∪ {[url]}.

(** [p.id === activeProjectId]: never true when no project is active. *)
Definition isActive (a : option string) (p : Project.t) : bool :=
  bool_decide (Some (Project.id p) = a).

(** [const activeProject = projects.find(p => p.id === activeProjectId)] *)
Definition activeProject (st : State) : option Project.t :=
  List.find (isActive (activeProjectId st)) (projects st).

(** *** Project management *)

Definition handleCreateProjectClick (st : State) : State :=
  setIsCreatingProject true
    (setNewProjectRatio ratio_16_9
       (setNewProjectName
          ("Projeto Sem T" +:+ String "237"%char "tulo "
             +:+ pretty (length (projects st) + 1)%nat)
          st)).

Definition confirmCreateProject (uuid : string) (t_created t_modified : Z)
  (st : State) : State :=
  if decide (JS.trim (newProjectName st) = "") then st
  else
    let newProject :=
      Project.mk uuid (newProjectName st) (newProjectRatio st)
        t_created t_modified [] [] in
    setIsCreatingProject false
      (setCurrentView timeline
         (setActiveProjectId (Some (Project.id newProject))
            (setProjects (λ prev, newProject :: prev) st))).

(** [project?.videos.forEach(v => URL.revokeObjectURL(v.url))] *)
Definition revokeVideos (project : option Project.t) (urls : gset string)
  : gset string :=
  match project with
  | Some p =>
      foldl (λ u v, revokeObjectURL (VideoItem.url v) u) urls (Project.videos p)
  | None => urls
  end.

Definition deleteProject (confirmed : bool) (projectId : string) (st : State)
  : State :=
  if confirmed then
    let project :=
      List.find (λ p, bool_decide (Project.id p = projectId)) (projects st) in
    let st1 := setObjectURLs (revokeVideos project) st in
    let st2 :=
      setProjects (filter (λ p, Project.id p ≠ projectId)) st1 in
    if decide (activeProjectId st = Some projectId)
    then setActiveProjectId None st2
    else st2
  else st.

Definition openProject (projectId : string) (st : State) : State :=
  setActiveProjectDuration 0%float
    (setSelectedGalleryIds (λ _, JS.StrSet.empty)
       (setCurrentView timeline
          (setActiveProjectId (Some projectId) st))).

Definition exitProject (st : State) : State :=
  setActiveProjectDuration 0%float (setActiveProjectId None st).

(** The sidebar buttons: [() => activeProjectId && setCurrentView(v)]. *)
Definition switchView (v : View) (st : State) : State :=
  if JS.falsy (activeProjectId st) then st else setCurrentView v st.

(** *** Data of the active project *)

(** [VideoItem[] | ((prev: VideoItem[]) => VideoItem[])] *)
Definition VideosUpdate : Type :=
  list VideoItem.t + (list VideoItem.t → list VideoItem.t).

(** [now] is the reading of [Date.now()] inside the update; identifiers
    being unique, the update takes it for at most one project. *)
Definition updateActiveProjectVideos (newVideosOrFn : VideosUpdate) (now : Z)
  (st : State) : State :=
  if JS.falsy (activeProjectId st) then st
  else
    setProjects
      (fmap (λ proj,
         if negb (isActive (activeProjectId st) proj) then proj
         else
           let updatedVideos :=
             match newVideosOrFn with
             | inr fn => fn (Project.videos proj)
             | inl newVideos => newVideos
             end in
           Project.with_videos updatedVideos now proj))
      st.

(** [Partial<VideoItem>]: the fields an update object carries. *)
Record VideoUpdates := mkUpdates {
  u_id : option string;
  u_file : option File.t;
  u_url : option string;
  u_name : option string;
  u_crop : option Crop.t
}.

(** [{ ...v, ...updates }]; the callers pass [{ name }] or [{ crop }] with
    the field defined. *)
Definition spread (v : VideoItem.t) (u : VideoUpdates) : VideoItem.t :=
  VideoItem.mk
    (default (VideoItem.id v) (u_id u))
    (default (VideoItem.file v) (u_file u))
    (default (VideoItem.url v) (u_url u))
    (default (VideoItem.name v) (u_name u))
    (match u_crop u with Some c => Some c | None => VideoItem.crop v end).

Definition handleUpdateVideo (videoId : string) (updates : VideoUpdates)
  (now : Z) (st : State) : State :=
  updateActiveProjectVideos
    (inr (fmap (λ v,
       if decide (VideoItem.id v = videoId) then spread v updates else v)))
    now st.

Definition handleRenameVideo (videoId newName : string) (now : Z) (st : State)
  : State :=
  handleUpdateVideo videoId (mkUpdates None None None (Some newName) None)
    now st.

Definition isVideoFile (f : File.t) : bool :=
  JS.startsWith "video/" (File.type f).

(** The items [handleFiles] builds: the [k]-th accepted file gets the
    [k]-th identifier and the [k]-th object URL of the environment. *)
Definition newVideosOf (files : list File.t) (uuids urls : nat → string)
  : list VideoItem.t :=
  imap (λ k f, VideoItem.mk (uuids k) f (urls k) (File.name f) None)
    (filter (λ f, isVideoFile f = true) files).

Definition handleFiles (files : option (list File.t))
  (uuids urls : nat → string) (now : Z) (st : State) : State :=
  match files with
  | None => st
  | Some files =>
      if JS.falsy (activeProjectId st) then st
      else
        let newVideos := newVideosOf files uuids urls in
        let st1 :=
          setObjectURLs
            (λ u,
               foldl (λ u v, createObjectURL (VideoItem.url v) u) u newVideos)
            st in
        setCurrentView timeline
          (updateActiveProjectVideos (inr (λ prev, prev ++ newVideos)) now st1)
  end.

(** *** Gallery of the active project *)

Definition addToGallery (src : string) (type : GalleryType) (videoName : string)
  (uuid : string) (t_created t_modified : Z) (st : State) : State :=
  if JS.falsy (activeProjectId st) then st
  else
    let newItem := GalleryItem.mk uuid src type videoName t_created in
    setProjects
      (fmap (λ proj,
         if negb (isActive (activeProjectId st) proj) then proj
         else
           Project.with_gallery_at
             (newItem :: Project.galleryItems proj) t_modified proj))
      st.

Definition removeFromGallery (id : string) (st : State) : State :=
  if JS.falsy (activeProjectId st) then st
  else
    setSelectedGalleryIds (JS.StrSet.delete id)
      (setProjects
         (fmap (λ proj,
            if negb (isActive (activeProjectId st) proj) then proj
            else
              Project.with_gallery
                (filter (λ item, GalleryItem.id item ≠ id)
                   (Project.galleryItems proj))
                proj))
         st).

Definition typeName (t : GalleryType) : string :=
  match t with
  | inicio => "inicio"
  | final => "final"
  | manual => "manual"
  end.

(** [videoName.substring(0, videoName.lastIndexOf('.')) || videoName] *)
Definition nameOnly (videoName : string) : string :=
  JS.or_else (JS.substring 0 (JS.lastIndexOf "."%char videoName) videoName)
    videoName.

(** What a click on a synthesized link hands to the browser. *)
Record Link := mkLink { href : string; download : string }.

Definition downloadGalleryItem (item : GalleryItem.t) : Link :=
  mkLink (GalleryItem.src item)
    (nameOnly (GalleryItem.videoName item) +:+ "_frame_"
       +:+ typeName (GalleryItem.type item) +:+ "_"
       +:+ JS.slice 0 4 (GalleryItem.id item) +:+ ".png").

(** *** Batch selection *)

Definition toggleSelection (id : string) (st : State) : State :=
  setSelectedGalleryIds
    (λ prev, if JS.StrSet.has id prev then JS.StrSet.delete id prev
             else JS.StrSet.add id prev)
    st.

Definition toggleSelectAll (st : State) : State :=
  match activeProject st with
  | None => st
  | Some p =>
      if decide (JS.StrSet.size (selectedGalleryIds st)
                 = length (Project.galleryItems p))
      then setSelectedGalleryIds (λ _, JS.StrSet.empty) st
      else
        setSelectedGalleryIds
          (λ _, JS.StrSet.of_list (GalleryItem.id <$> Project.galleryItems p))
          st
  end.

Definition deleteSelected (confirmed : bool) (st : State) : State :=
  match activeProject st with
  | None => st
  | Some _ =>
      if confirmed then
        setSelectedGalleryIds (λ _, JS.StrSet.empty)
          (setProjects
             (fmap (λ proj,
                if negb (isActive (activeProjectId st) proj) then proj
                else
                  Project.with_gallery
                    (filter
                       (λ item,
                          JS.StrSet.has (GalleryItem.id item)
                            (selectedGalleryIds st) = false)
                       (Project.galleryItems proj))
                    proj))
             st)
      else st
  end.

(** *** Batch export *)

(** The contents handed to the archive encoder: one folder and, under it,
    a map from entry name to base64 payload ([folder.file(name, data)]
    replaces the entry of that name when there is one).  The payload is
    [undefined] ([None]) when [src] holds no comma. *)
Record Archive := mkArchive {
  folder : string;
  files : gmap string (option string)
}.

(** [activeProject.name.replace(/[^a-z0-9]/gi, '_').toLowerCase()] *)
Definition folderName (p : Project.t) : string :=
  JS.toLowerCase (JS.replaceNonAlnum (Project.name p)).

(** The entry name of a gallery item inside the archive. *)
Definition fileName (item : GalleryItem.t) : string :=
  nameOnly (GalleryItem.videoName item) +:+ "_"
    +:+ typeName (GalleryItem.type item) +:+ "_"
    +:+ JS.slice 0 4 (GalleryItem.id item) +:+ ".png".

(** [item.src.split(',')[1]] *)
Definition base64Data (item : GalleryItem.t) : option string :=
  JS.split ","%char (GalleryItem.src item) !! 1%nat.

(** [activeProject.galleryItems.find(i => i.id === id)] *)
Definition findItem (p : Project.t) (id : string) : option GalleryItem.t :=
  List.find (λ i, bool_decide (GalleryItem.id i = id)) (Project.galleryItems p).

(** The body of [selectedGalleryIds.forEach(id => ...)]. *)
Definition addEntry (p : Project.t) (fs : gmap string (option string))
  (id : string) : gmap string (option string) :=
  match findItem p id with
  | Some item => <[fileName item := base64Data item]> fs
  | None => fs
  end.

Definition batchArchive (p : Project.t) (selected : JS.StrSet.t) : Archive :=
  mkArchive (folderName p +:+ "_frames") (foldl (addEntry p) ∅ selected).

(** What [downloadBatchZip] offers for download: the archive and the name
    of the zip file. *)
Record BatchDownload := mkBatch { zipName : string; zip : Archive }.

(** [zip_ok] tells whether loading the zip library and encoding the
    archive succeeded; when they fail the handler only alerts. *)
Definition downloadBatchZip (zip_ok : bool) (now : Z) (st : State)
  : State * option BatchDownload :=
  match activeProject st with
  | None => (st, None)
  | Some p =>
      if decide (JS.StrSet.size (selectedGalleryIds st) = 0%nat) then (st, None)
      else if zip_ok then
        (setIsZipping false st,
         Some (mkBatch (folderName p +:+ "_batch_" +:+ pretty now +:+ ".zip")
                 (batchArchive p (selectedGalleryIds st))))
      else (setIsZipping false st, None)
  end.

(** *** Values computed while rendering *)

(** [activeProject && activeProject.galleryItems.length > 0 &&
    selectedGalleryIds.size === activeProject.galleryItems.length], read
    as a condition. *)
Definition isAllSelected (st : State) : bool :=
  match activeProject st with
  | None => false
  | Some p =>
      bool_decide (0 < length (Project.galleryItems p))%nat
      && bool_decide (JS.StrSet.size (selectedGalleryIds st)
                      = length (Project.galleryItems p))
  end.

End App.

(** ** Media elements and the capture primitive *)

Module Media.

(** The part of an [HTMLVideoElement] the components use.  [currentTime]
    holds the position last requested by an assignment to it.  [duration]
    is what the element reports: [NaN] before the metadata is there,
    [Infinity] for a stream without a known end. *)
Record Video := mkVideo { duration : float; currentTime : float }.

(** [video.currentTime = time].  The attribute is a restricted double: the
    assignment throws a [TypeError] for [NaN] and for the infinities, and
    the element is then as it was.  [None] stands for the throw. *)
Definition seek (time : float) (v : Video) : option Video :=
  if is_finite time then Some (mkVideo (duration v) time) else None.

(** A run of a component against one video element: the element and the
    timestamps at which a capture was requested so far, oldest first. *)
Record Run := mkRun { video : Video; requested : list float }.

End Media.

(** ** The timeline editor ([TimelineEditor], [VideoCard]) *)

Module TimelineEditor.

Inductive Direction := Left | Right.

(** [moveVideo(index, direction)] up to the call of [setVideos]: the array
    it hands over.  [videos] is copied, then two cells are exchanged by a
    destructuring assignment, which reads both cells first and then writes
    the cell named first on its left-hand side, then the other one. *)
Definition moveVideo (videos : list (option VideoItem.t)) (index : nat)
  (direction : Direction) : list (option VideoItem.t) :=
  let newVideos := videos in
  match direction with
  | Left =>
      if decide (0 < index)%nat then
        let r0 := JS.get index newVideos in
        let r1 := JS.get (index - 1) newVideos in
        JS.set index r1 (JS.set (index - 1) r0 newVideos)
      else newVideos
  | Right =>
      if decide (Z.of_nat index < Z.of_nat (length videos) - 1) then
        let r0 := JS.get index newVideos in
        let r1 := JS.get (index + 1) newVideos in
        JS.set index r1 (JS.set (index + 1) r0 newVideos)
      else newVideos
  end.

(** A sequence of calls, each on the array the previous one handed over. *)
Definition moveVideos (calls : list (nat * Direction))
  (videos : list (option VideoItem.t)) : list (option VideoItem.t) :=
  foldl (λ vs c, moveVideo vs c.1 c.2) videos calls.

(** [onDelete]: [setVideos(v => v.filter(i => i.id !== video.id))], with
    [setVideos] bound to [updateActiveProjectVideos]. *)
Definition onDelete (videoId : string) (now : Z) (st : App.State) : App.State :=
  App.updateActiveProjectVideos
    (inr (filter (λ i, VideoItem.id i ≠ videoId))) now st.

(** [onInsertVideo]: [onAddFiles([file])], with [onAddFiles] bound to
    [handleFiles]. *)
Definition onInsertVideo (file : File.t) (uuids urls : nat → string) (now : Z)
  (st : App.State) : App.State :=
  App.handleFiles (Some [file]) uuids urls now st.

(** The thumbnails of a [VideoCard]. *)
Record Thumbs := mkThumbs {
  startFrameImg : option string;
  endFrameImg : option string;
  loadingThumbs : bool
}.

Section Thumbnails.
(** The still the decoder renders for an element at its position, as a PNG
    data URL. *)
Variable frame : Media.Video → string.

(** [extract(time)]: seek, wait for [seeked], draw and encode.  The
    assignment to [currentTime] is made in the executor of the promise:
    when it throws the promise is rejected ([None]) and no seek was
    requested. *)
Definition extract (time : float) (r : Media.Run)
  : option (string * Media.Run) :=
  v ← Media.seek time (Media.video r);
  Some (frame v, Media.mkRun v (Media.requested r ++ [time])).

(** [generateThumbs] of a mounted [VideoCard], once the metadata of the
    temporary element is loaded: the thumbnails after it, and the run of
    the temporary element.  A rejected [extract] leaves the [try] block
    at once; [finally] clears the loading flag either way. *)
Definition generateThumbs (tempVideo : Media.Video) (th : Thumbs)
  : Thumbs * Media.Run :=
  let r0 := Media.mkRun tempVideo [] in
  match extract 0.1%float r0 with
  | None => (mkThumbs (startFrameImg th) (endFrameImg th) false, r0)
  | Some (start, r1) =>
      match
        extract
          (JS.Math_max 0 (Media.duration (Media.video r1) - 0.1)%float) r1
      with
      | None => (mkThumbs (Some start) (endFrameImg th) false, r1)
      | Some (end_, r2) => (mkThumbs (Some start) (Some end_) false, r2)
      end
  end.
End Thumbnails.

(** The zoom buttons of the timeline canvas:
    [setScale(s => Math.min(s + 0.1, 3))],
    [setScale(s => Math.max(s - 0.1, 0.2))] and the reset button. *)
Record Viewport := mkViewport { scale : float; position : float * float }.

Definition initialViewport : Viewport := mkViewport 1 (0%float, 0%float).

Definition zoomIn (v : Viewport) : Viewport :=
  mkViewport (JS.Math_min (scale v + 0.1) 3) (position v).

Definition zoomOut (v : Viewport) : Viewport :=
  mkViewport (JS.Math_max (scale v - 0.1) 0.2) (position v).

Definition resetView (v : Viewport) : Viewport :=
  mkViewport 1 (0%float, 0%float).

End TimelineEditor.

(** ** The frame processor ([FrameProcessor]) *)

Module FrameProcessor.

Record State := mkState {
  firstFrame : option string;
  lastFrame : option string;
  duration : float;
  isProcessing : bool
}.

Section Capture.
Variable frame : Media.Video → string.

(** [captureAtTime(time)] on a mounted video element: resolves to the
    empty string, without seeking, when the canvas is missing.  The
    assignment to [currentTime] is made in the executor of the promise:
    when it throws the promise is rejected ([None]) and no seek was
    requested. *)
Definition captureAtTime (canvas : bool) (time : float) (r : Media.Run)
  : option (string * Media.Run) :=
  if canvas then
    v ← Media.seek time (Media.video r);
    Some (frame v, Media.mkRun v (Media.requested r ++ [time]))
  else Some ("", r).

(** [processAutomaticFrames], the [onLoadedMetadata] handler.  The
    duration is recorded first; a rejected capture leaves the [try] block
    at once, so that what follows it (the other frame, the rewind) is
    skipped; [finally] clears the processing flag either way. *)
Definition processAutomaticFrames (videoRef : option Media.Video)
  (canvas : bool) (st : State) : State * option Media.Run :=
  match videoRef with
  | None => (st, None)
  | Some video =>
      let r0 := Media.mkRun video [] in
      let duration := Media.duration video in
      match captureAtTime canvas 0%float r0 with
      | None => (mkState (firstFrame st) (lastFrame st) duration false, Some r0)
      | Some (start, r1) =>
          match
            captureAtTime canvas
              (JS.Math_max 0 (Media.duration video - 0.1)%float) r1
          with
          | None =>
              (mkState (Some start) (lastFrame st) duration false, Some r1)
          | Some (end_, r2) =>
              let r3 :=
                Media.mkRun
                  (default (Media.video r2) (Media.seek 0%float (Media.video r2)))
                  (Media.requested r2) in
              (mkState (Some start) (Some end_) duration false, Some r3)
          end
      end
  end.
End Capture.

(** [handleManualCapture]: the frame on display is drawn and encoded, with
    no seek; nothing happens when the video or the canvas is missing.  The
    result is the new value of [manualFrame]. *)
Definition handleManualCapture (frame : Media.Video → string)
  (videoRef : option Media.Video) (canvas : bool) (manualFrame : option string)
  : option string :=
  match videoRef with
  | Some video => if canvas then Some (frame video) else manualFrame
  | None => manualFrame
  end.

(** [download(dataUrl, suffix)] for the video named [fileName]. *)
Definition download (fileName dataUrl suffix : string) : App.Link :=
  let nameOnly :=
    JS.or_else (JS.substring 0 (JS.lastIndexOf "."%char fileName) fileName)
      fileName in
  App.mkLink dataUrl (nameOnly +:+ "_" +:+ suffix +:+ ".png").

End FrameProcessor.

(** ** The drop zone ([Dropzone]) *)

Module Dropzone.

(** What a gesture on the drop zone leads to: the file handed to
    [onFileSelect], the alert, or nothing. *)
Inductive Outcome :=
| Selected (file : File.t)
| Alerted
| Ignored.

(** [handleDragOver] and [handleDragLeave]: the new value of [isDragging]. *)
Definition handleDragOver (isDragging : bool) : bool := true.
Definition handleDragLeave (isDragging : bool) : bool := false.

(** [handleDrop]: the first dropped file whose type starts with [video/]
    is selected; without one the user is alerted.  The first component is
    the new value of [isDragging]. *)
Definition handleDrop (files : list File.t) : bool * Outcome :=
  (false,
   match List.find (λ file, JS.startsWith "video/" (File.type file)) files with
   | Some videoFile => Selected videoFile
   | None => Alerted
   end).

(** [handleFileInput]: only [files[0]] is looked at. *)
Definition handleFileInput (files : option (list File.t)) : Outcome :=
  match files with
  | Some (file :: _) =>
      if JS.startsWith "video/" (File.type file) then Selected file else Ignored
  | _ => Ignored
  end.

End Dropzone.

(** ** The single-video processor ([VideoProcessor]) *)

Module VideoProcessor.

Record State := mkState {
  capturedImage : option string;
  isProcessing : bool;
  error : option string;
  videoDuration : float;
  currentTime : float;
  isPlaying : bool
}.

(** [seekToEnd]: slightly before the end.  [None] when the assignment
    throws, the element staying where it was. *)
Definition seekToEnd (video : Media.Video) : option Media.Video :=
  let safeEndTime := JS.Math_max 0 (Media.duration video - 0.1)%float in
  Media.seek safeEndTime video.

Definition seekToStart (video : Media.Video) : option Media.Video :=
  Media.seek 0%float video.

(** [handleLoadedMetadata]: the duration is recorded, then [seekToEnd] is
    called; when that throws the listener ends there, with the duration
    recorded and the element where it was ([None]). *)
Definition handleLoadedMetadata (video : Media.Video) (st : State)
  : State * option Media.Video :=
  (mkState (capturedImage st) (isProcessing st) (error st)
     (Media.duration video) (currentTime st) (isPlaying st),
   seekToEnd video).

Definition captureFailed : string :=
  "Falha ao capturar o frame. O v" +:+ String "237"%char "deo pode estar"
    +:+ " corrompido ou em formato incompat" +:+ String "237"%char "vel.".

(** [captureFrame].  [context] tells whether the canvas gives a 2D
    context; [encoded] is the data URL drawing and encoding produce, or
    [None] when they throw.  [onFrameCaptured] is the parent's callback,
    when it passed one: applied to the data URL it tells whether the call
    returns ([true]) or throws ([false]).  The call is made inside the
    [try] block, after the image is stored: when it throws, the [catch]
    block sets the error on top of the new image.  The second component
    is the data URL the callback was called with. *)
Definition captureFrame (videoRef : option Media.Video) (canvas : bool)
  (context : bool) (encoded : option string)
  (onFrameCaptured : option (string → bool)) (st : State)
  : State * option string :=
  match videoRef with
  | None => (st, None)
  | Some _ =>
      if negb canvas then (st, None)
      else
        match (if context then encoded else None) with
        | Some dataUrl =>
            match onFrameCaptured with
            | None =>
                (mkState (Some dataUrl) false None (videoDuration st)
                   (currentTime st) (isPlaying st),
                 None)
            | Some callback =>
                if callback dataUrl then
                  (mkState (Some dataUrl) false None (videoDuration st)
                     (currentTime st) (isPlaying st),
                   Some dataUrl)
                else
                  (mkState (Some dataUrl) false (Some captureFailed)
                     (videoDuration st) (currentTime st) (isPlaying st),
                   Some dataUrl)
            end
        | None =>
            (mkState (capturedImage st) false (Some captureFailed)
               (videoDuration st) (currentTime st) (isPlaying st),
             None)
        end
  end.

(** [togglePlay] *)
Definition togglePlay (videoRef : option Media.Video) (st : State) : State :=
  match videoRef with
  | None => st
  | Some _ =>
      mkState (capturedImage st) (isProcessing st) (error st)
        (videoDuration st) (currentTime st) (negb (isPlaying st))
  end.

End VideoProcessor.

(** ** The frame extender ([FrameExtender]) *)

Module FrameExtender.

Record State := mkState {
  prompt : string;
  generatedImage : option string;
  isLoading : bool;
  error : option string
}.

(** The part of the model's response the component reads.  [inlineData]
    is [None] when the part has none, and holds the part's [data] (itself
    possibly [undefined]) otherwise. *)
Record Part := mkPart { inlineData : option (option string) }.
Record Content := mkContent { parts : option (list Part) }.
Record Candidate := mkCandidate { content : option Content }.
Record Response := mkResponse { candidates : option (list Candidate) }.

(** What the environment does with one request: the dynamic import may
    fail, the key may be missing, the call may be rejected; [typeError]
    is the message of the [TypeError] the engine raises on a property read
    from [undefined]. *)
Record Environment := mkEnvironment {
  importError : option string;
  apiKey : option string;
  reply : string + Response;
  typeError : string
}.

Definition keyMissing : string :=
  "API Key n" +:+ String "227"%char "o encontrada. Verifique se a vari"
    +:+ String "225"%char "vel de ambiente est" +:+ String "225"%char
    " configurada.".

Definition noImage : string :=
  "O modelo n" +:+ String "227"%char "o retornou uma imagem v"
    +:+ String "225"%char "lida. Tente reformular o prompt.".

Definition unknownError : string := "Erro desconhecido ao gerar a imagem.".

(** The first part that carries [inlineData], as the [for ... of] loop
    with its [break] finds it. *)
Definition firstInline (ps : list Part) : option (option string) :=
  mjoin (inlineData <$> List.find (λ part, bool_decide (is_Some (inlineData part))) ps).

(** [`data:image/png;base64,${part.inlineData.data}`] *)
Definition imageUrl (data : option string) : string :=
  "data:image/png;base64," +:+ default "undefined" data.

(** The body of the [try] block: the image URL, or the message of what
    was thrown. *)
Definition attempt (env : Environment) : string + string :=
  match importError env with
  | Some message => inr message
  | None =>
      if JS.falsy (apiKey env) then inr keyMissing
      else
        match reply env with
        | inl message => inr message
        | inr response =>
            match candidates response with
            | None => inr noImage
            | Some [] => inr (typeError env)
            | Some (candidate :: _) =>
                match content candidate with
                | None => inr (typeError env)
                | Some c =>
                    match parts c with
                    | None => inr noImage
                    | Some ps =>
                        match firstInline ps with
                        | Some data => inl (imageUrl data)
                        | None => inr noImage
                        end
                    end
                end
            end
        end
  end.

(** [handleGenerate], from the click to the end of [finally]. *)
Definition handleGenerate (env : Environment) (st : State) : State :=
  if decide (JS.trim (prompt st) = "") then st
  else
    match attempt env with
    | inl imgUrl => mkState (prompt st) (Some imgUrl) false None
    | inr message =>
        mkState (prompt st) None false (Some (JS.or_else message unknownError))
    end.

End FrameExtender.

(** ** User actions *)

Module UI.

(** The actions the rendered tree offers.  A project card or a video card
    is named by its position in the list that was rendered; values the
    environment supplies ride along.  Render guards (which screen is
    visible, which button is disabled) are not imposed, so the runs below
    include every run of the interface. *)
Inductive Event :=
| CreateProjectClick
| TypeProjectName (s : string)
| ChooseRatio (r : AspectRatio)
| CloseCreateModal
| ConfirmCreateProject (uuid : string) (t_created t_modified : Z)
| ClickDeleteProject (card : nat) (confirmed : bool)
| ClickProjectCard (card : nat)
| ExitProject
| SwitchView (v : View)
| GoToTimeline
| MoveVideo (index : nat) (direction : TimelineEditor.Direction) (now : Z)
| DeleteVideo (index : nat) (now : Z)
| UpdateVideo (videoId : string) (updates : App.VideoUpdates) (now : Z)
| RenameVideo (videoId newName : string) (now : Z)
| AddFiles (files : option (list File.t)) (uuids urls : nat → string) (now : Z)
| InsertVideo (file : File.t) (uuids urls : nat → string) (now : Z)
| AddToGallery (src : string) (type : GalleryType) (videoName : string)
    (uuid : string) (t_created t_modified : Z)
| RemoveFromGallery (id : string)
| ToggleSelection (id : string)
| ToggleSelectAll
| DeleteSelected (confirmed : bool)
| DownloadBatchZip (zip_ok : bool) (now : Z)
| TotalDurationChange (d : float).

(** The videos of the project on screen, as the timeline editor gets them. *)
Definition shownVideos (st : App.State) : list VideoItem.t :=
  from_option Project.videos [] (App.activeProject st).

Definition handle (e : Event) (st : App.State) : App.State :=
  match e with
  | CreateProjectClick => App.handleCreateProjectClick st
  | TypeProjectName s => App.setNewProjectName s st
  | ChooseRatio r => App.setNewProjectRatio r st
  | CloseCreateModal => App.setIsCreatingProject false st
  | ConfirmCreateProject uuid t1 t2 => App.confirmCreateProject uuid t1 t2 st
  | ClickDeleteProject card confirmed =>
      match App.projects st !! card with
      | Some project => App.deleteProject confirmed (Project.id project) st
      | None => st
      end
  | ClickProjectCard card =>
      match App.projects st !! card with
      | Some project => App.openProject (Project.id project) st
      | None => st
      end
  | ExitProject => App.exitProject st
  | SwitchView v => App.switchView v st
  | GoToTimeline => App.setCurrentView timeline st
  | MoveVideo index direction now =>
      if decide (index < length (shownVideos st))%nat then
        match
          JS.defined
            (TimelineEditor.moveVideo (Some <$> shownVideos st) index direction)
        with
        | Some newVideos =>
            App.updateActiveProjectVideos (inl newVideos) now st
        | None => st
        end
      else st
  | DeleteVideo index now =>
      match shownVideos st !! index with
      | Some video => TimelineEditor.onDelete (VideoItem.id video) now st
      | None => st
      end
  | UpdateVideo videoId updates now =>
      App.handleUpdateVideo videoId updates now st
  | RenameVideo videoId newName now =>
      App.handleRenameVideo videoId newName now st
  | AddFiles files uuids urls now => App.handleFiles files uuids urls now st
  | InsertVideo file uuids urls now =>
      TimelineEditor.onInsertVideo file uuids urls now st
  | AddToGallery src type videoName uuid t1 t2 =>
      App.addToGallery src type videoName uuid t1 t2 st
  | RemoveFromGallery id => App.removeFromGallery id st
  | ToggleSelection id => App.toggleSelection id st
  | ToggleSelectAll => App.toggleSelectAll st
  | DeleteSelected confirmed => App.deleteSelected confirmed st
  | DownloadBatchZip zip_ok now => (App.downloadBatchZip zip_ok now st).1
  | TotalDurationChange d => App.setActiveProjectDuration d st
  end.

(** The states the interface can be in. *)
Inductive reachable : App.State → Prop :=
| reachable_initial : reachable App.initial
| reachable_handle e st : reachable st → reachable (handle e st).

(** The actions that change the videos or the gallery of a project. *)
Definition mutatesProject (e : Event) : bool :=
  match e with
  | MoveVideo _ _ _ | DeleteVideo _ _ | UpdateVideo _ _ _ | RenameVideo _ _ _
  | AddFiles _ _ _ _ | InsertVideo _ _ _ _ | AddToGallery _ _ _ _ _ _
  | RemoveFromGallery _ | DeleteSelected _ => true
  | _ => false
  end.

(** The [Date.now()] readings an action carries, in the order in which
    they are taken. *)
Definition readings (e : Event) : list Z :=
  match e with
  | ConfirmCreateProject _ t_created t_modified => [t_created; t_modified]
  | AddToGallery _ _ _ _ t_created t_modified => [t_created; t_modified]
  | MoveVideo _ _ now | DeleteVideo _ now | UpdateVideo _ _ now
  | RenameVideo _ _ now | AddFiles _ _ _ now | InsertVideo _ _ _ now
  | DownloadBatchZip _ now => [now]
  | _ => []
  end.

(** [inOrder t l]: the readings [l] follow [t] and never go back. *)
Fixpoint inOrder (t : Z) (l : list Z) : Prop :=
  match l with
  | [] => True
  | x :: l' => t ≤ x ∧ inOrder x l'
  end.

(** The states the interface reaches while the clock never goes back;
    [ticking t st] holds when no reading taken so far exceeds [t]. *)
Inductive ticking : Z → App.State → Prop :=
| ticking_initial t : ticking t App.initial
| ticking_handle e st t t' :
    ticking t st → inOrder t (readings e ++ [t']) → ticking t' (handle e st).

End UI.

(** ** Sample data *)

Module Sample.

Definition clip : File.t := File.mk "clip.mp4" "video/mp4".
Definition notes : File.t := File.mk "notes.txt" "text/plain".
Definition intro : File.t := File.mk "intro.webm" "video/webm".

Definition uuids (k : nat) : string :=
  "0000000" +:+ pretty k +:+ "-aaaa-4aaa-8aaa-aaaaaaaaaaaa".
Definition urls (k : nat) : string :=
  "blob:http://localhost/" +:+ pretty k.

Definition video1 : VideoItem.t :=
  VideoItem.mk "11a2b3c4-0000-4000-8000-000000000001" clip
    "blob:http://localhost/v1" "clip.mp4" None.

Definition video2 : VideoItem.t :=
  VideoItem.mk "22a2b3c4-0000-4000-8000-000000000002" intro
    "blob:http://localhost/v2" "intro.webm" None.
Definition video3 : VideoItem.t :=
  VideoItem.mk "33a2b3c4-0000-4000-8000-000000000003" clip
    "blob:http://localhost/v3" "outro.mp4" None.

Definition item1 : GalleryItem.t :=
  GalleryItem.mk "abcd1111-0000-4000-8000-000000000001"
    "data:image/png;base64,AAAA" manual "clip.mp4" 2000.
Definition item2 : GalleryItem.t :=
  GalleryItem.mk "abcd2222-0000-4000-8000-000000000002"
    "data:image/png;base64,BBBB" manual "clip.mp4" 3000.

Definition projectA : Project.t :=
  Project.mk "aaaaaaaa-0000-4000-8000-00000000000a" "Demo A" ratio_16_9
    1000 3000 [video1] [item2; item1].
Definition projectB : Project.t :=
  Project.mk "bbbbbbbb-0000-4000-8000-00000000000b" "Demo B" ratio_9_16
    4000 4000 [] [].

(** Project A is open in the gallery view, both of its captures selected. *)
Definition editingA : App.State :=
  App.mkState [projectA] (Some (Project.id projectA)) 0%float false ""
    ratio_16_9 gallery [GalleryItem.id item2; GalleryItem.id item1] false
    {[VideoItem.url video1]}.

(** The dashboard with project A, the creation dialog filled in. *)
Definition creatingB : App.State :=
  App.mkState [projectA] None 0%float true "Demo B" ratio_9_16 timeline
    JS.StrSet.empty false {[VideoItem.url video1]}.

Definition item3 : GalleryItem.t :=
  GalleryItem.mk "ef013333-0000-4000-8000-000000000003"
    "data:image/png;base64,CCCC" final "intro.webm" 3500.

Definition projectC : Project.t :=
  Project.mk "cccccccc-0000-4000-8000-00000000000c" "Demo C" ratio_1_1
    1000 3500 [video1; video2] [item3; item1].

(** Project C is open in the gallery view, both of its captures selected. *)
Definition editingC : App.State :=
  App.mkState [projectC; projectA] (Some (Project.id projectC)) 0%float false
    "" ratio_16_9 gallery [GalleryItem.id item1; GalleryItem.id item3] false
    {[VideoItem.url video1; VideoItem.url video2]}.

(** Project A is created, then project B; B is the one left open. *)
Definition createAThenB : list UI.Event :=
  [ UI.CreateProjectClick;
    UI.TypeProjectName "Demo A";
    UI.ConfirmCreateProject (Project.id projectA) 1000 1000;
    UI.ExitProject;
    UI.CreateProjectClick;
    UI.TypeProjectName "Demo B";
    UI.ChooseRatio ratio_9_16;
    UI.ConfirmCreateProject (Project.id projectB) 4000 4000 ].

Definition afterAThenB : App.State :=
  foldl (λ st e, UI.handle e st) App.initial createAThenB.

(** The decoder, for the samples: every position renders the same still. *)
Definition still (v : Media.Video) : string := "data:image/png;base64,AAAA".

Definition loading : FrameProcessor.State :=
  FrameProcessor.mkState None None 0%float true.

(** A video card before its thumbnails are there. *)
Definition blank : TimelineEditor.Thumbs :=
  TimelineEditor.mkThumbs None None true.

Definition tenSeconds : Media.Video := Media.mkVideo 10%float 0%float.
Definition endless : Media.Video := Media.mkVideo infinity 0%float.
Definition twentiethOfASecond : Media.Video := Media.mkVideo 0.05%float 0%float.

End Sample.

(** ** More sample data *)

Module Cases.

Definition item4 : GalleryItem.t :=
  GalleryItem.mk "0123abcd-0000-4000-8000-000000000004"
    "data:image/png;base64,DDDD" inicio "intro.webm" 3600.

(** Project C is open, nothing selected. *)
Definition browsingC : App.State :=
  App.mkState [Sample.projectC; Sample.projectA]
    (Some (Project.id Sample.projectC)) 0%float false "" ratio_16_9 gallery
    JS.StrSet.empty false
    {[VideoItem.url Sample.video1; VideoItem.url Sample.video2]}.

(** Project A's captures are selected, the user leaves the project and
    creates project B: the selection is still there. *)
Definition staleSelection : App.State :=
  App.confirmCreateProject (Project.id Sample.projectB) 4000 4000
    (App.setNewProjectRatio ratio_9_16
       (App.setNewProjectName "Demo B" (App.exitProject Sample.editingA))).

Definition threeFiles : list File.t :=
  [Sample.notes; Sample.clip; Sample.intro].

Definition threeVideos : list VideoItem.t :=
  [Sample.video1; Sample.video2; Sample.video3].

Definition idleProcessor : VideoProcessor.State :=
  VideoProcessor.mkState None false None 10%float 0%float false.

Definition asking : FrameExtender.State :=
  FrameExtender.mkState "the camera pulls back" None false None.

Definition answered : FrameExtender.Environment :=
  FrameExtender.mkEnvironment None (Some "key")
    (inr (FrameExtender.mkResponse
            (Some [FrameExtender.mkCandidate
                     (Some (FrameExtender.mkContent
                              (Some [FrameExtender.mkPart None;
                                     FrameExtender.mkPart (Some (Some "EEEE"))])))])))
    "Cannot read properties of undefined".

(** A run of the interface with its clock: project A is created at 1000
    and gets a capture at 2000. *)
Definition createAndCapture : list UI.Event :=
  [ UI.TypeProjectName "Demo A";
    UI.ConfirmCreateProject (Project.id Sample.projectA) 1000 1000;
    UI.AddToGallery "data:image/png;base64,AAAA" manual "clip.mp4"
      (GalleryItem.id Sample.item1) 2000 2000 ].

End Cases.

(** ** Properties *)

(** How a handler [f] may touch the store: it keeps the number of
    projects, leaves every project other than the active one as it was,
    and does nothing at all when no project is active. *)
Definition touchesOnlyActive (f : App.State → App.State) : Prop :=
  ∀ st,
    length (App.projects (f st)) = length (App.projects st)
    ∧ (∀ i p, App.projects st !! i = Some p →
              Some (Project.id p) ≠ App.activeProjectId st →
              App.projects (f st) !! i = Some p)
    ∧ (JS.falsy (App.activeProjectId st) = true → f st = st).

(** The active identifier is [null] or names a project of the store. *)
Definition activeInStore (st : App.State) : Prop :=
  match App.activeProjectId st with
  | None => True
  | Some a => a ∈ Project.id <$> App.projects st
  end.

(** Every project was created no later than it was last modified, and
    last modified no later than [t]. *)
Definition stampedBy (t : Z) (st : App.State) : Prop :=
  Forall (λ p, Project.createdAt p ≤ Project.lastModified p ≤ t)
    (App.projects st).

(** *** The JavaScript primitives on samples *)

Example trim_samples :
  JS.trim "  Demo A  " = "Demo A"
  ∧ JS.trim (String " " (String "009" "")) = ""
  ∧ JS.trim "" = "".
Proof. by vm_compute. Qed.

Example lastIndexOf_samples :
  JS.lastIndexOf "." "a.b.c" = 3
  ∧ JS.lastIndexOf "." ".hidden" = 0
  ∧ JS.lastIndexOf "." "noext" = -1.
Proof. by vm_compute. Qed.

Example nameOnly_samples :
  App.nameOnly "clip.mp4" = "clip"
  ∧ App.nameOnly "a.b.c" = "a.b"
  ∧ App.nameOnly ".hidden" = ".hidden"
  ∧ App.nameOnly "noext" = "noext".
Proof. by vm_compute. Qed.

Example slice_samples :
  JS.slice 0 4 "abcd1111-0000" = "abcd"
  ∧ JS.slice 0 4 "ab" = "ab"
  ∧ JS.slice (-3) 4 "abcde" = "cd".
Proof. by vm_compute. Qed.

Example split_samples :
  JS.split "," "data:image/png;base64,AAAA" = ["data:image/png;base64"; "AAAA"]
  ∧ JS.split "," "" = [""]
  ∧ App.base64Data (GalleryItem.mk "id" "no comma" manual "clip.mp4" 0) = None
  ∧ App.base64Data Sample.item1 = Some "AAAA".
Proof. by vm_compute. Qed.

Example names_of_samples :
  App.folderName Sample.projectA = "demo_a"
  ∧ App.fileName Sample.item1 = "clip_manual_abcd.png"
  ∧ App.fileName Sample.item2 = "clip_manual_abcd.png"
  ∧ App.fileName Sample.item3 = "intro_final_ef01.png"
  ∧ App.download (App.downloadGalleryItem Sample.item3)
    = "intro_frame_final_ef01.png".
Proof. by vm_compute. Qed.

Example StrSet_samples :
  JS.StrSet.of_list ["a"; "b"; "a"] = ["a"; "b"]
  ∧ JS.StrSet.add "a" ["a"; "b"] = ["a"; "b"]
  ∧ JS.StrSet.delete "a" ["a"; "b"] = ["b"].
Proof. by vm_compute. Qed.

Example Math_max_samples :
  JS.Math_max 0 nan = nan
  ∧ JS.Math_max (-0) 0 = 0%float
  ∧ JS.Math_max 0 (-0) = 0%float
  ∧ JS.Math_max 0 infinity = infinity
  ∧ JS.Math_max 0 (-1) = 0%float.
Proof. by vm_compute. Qed.

(** *** Lists and the active project *)

Section ListFacts.
Context {A : Type}.

Lemma find_fmap_stable (P : A → bool) (F : A → A) (l : list A) :
  (∀ x, P (F x) = P x) → List.find P (F <$> l) = F <$> List.find P l.
Proof.
  intros HP. induction l as [|x l IH]; [done|].
  cbn [fmap list_fmap List.find]. rewrite HP.
  destruct (P x); [done|]. exact IH.
Qed.

Lemma find_filter_other (P : A → bool) (Q : A → Prop)
    `{!∀ x, Decision (Q x)} (l : list A) :
  (∀ x, P x = true → Q x) →
  List.find P (filter Q l) = List.find P l.
Proof.
  intros HPQ. induction l as [|x l IH]; [done|].
  rewrite filter_cons. destruct (decide (Q x)) as [Hq|Hq].
  - cbn [List.find]. by rewrite IH.
  - cbn [List.find]. destruct (P x) eqn:Hp; [|exact IH].
    by apply HPQ in Hp.
Qed.

Lemma filter_all (Q : A → Prop) `{!∀ x, Decision (Q x)} (l : list A) :
  Forall Q l → filter Q l = l.
Proof.
  induction 1 as [|x l Hx _ IH]; [done|].
  by rewrite filter_cons, decide_True, IH.
Qed.

Lemma Forall_filter_keeps (P Q : A → Prop) `{!∀ x, Decision (Q x)}
    (l : list A) :
  Forall P l → Forall P (filter Q l).
Proof.
  rewrite !Forall_forall. intros Hall x [_ Hx]%list_elem_of_filter.
  by apply Hall.
Qed.

Lemma NoDup_fmap_via {B C} (f : A → B) (g : A → C) (l : list A) :
  (∀ x y, x ∈ l → y ∈ l → f x = f y → g x = g y) →
  NoDup (g <$> l) → NoDup (f <$> l).
Proof.
  induction l as [|x l IH]; intros Hfg Hg; [constructor|].
  apply NoDup_cons in Hg as [Hx Hg]. cbn. apply NoDup_cons. split.
  - intros (y & Hxy & Hy)%list_elem_of_fmap. apply Hx.
    apply list_elem_of_fmap. exists y. split; [|done].
    apply Hfg; [apply list_elem_of_here|by apply list_elem_of_further|done].
  - apply IH; [|done]. intros y z Hy Hz.
    apply Hfg; by apply list_elem_of_further.
Qed.

Lemma swap_adjacent_perm (l : list A) (i : nat) (a b : A) :
  l !! i = Some a → l !! S i = Some b →
  <[S i := a]> (<[i := b]> l) ≡ₚ l.
Proof.
  revert i. induction l as [|x l IH]; intros [|i] Ha Hb; simplify_eq/=.
  - destruct l as [|y l]; simplify_eq/=. apply perm_swap.
  - f_equiv. by apply IH.
Qed.

End ListFacts.

(** The update every per-project handler applies to the store: the
    projects whose [id] is the active one go through [G], the others are
    returned as they are. *)
Section OnActive.
Variable a : option string.
Variable G : Project.t → Project.t.
Hypothesis G_id : ∀ p, Project.id (G p) = Project.id p.

Local Abbreviation F :=
  (λ proj : Project.t, if negb (App.isActive a proj) then proj else G proj).

Lemma onActive_isActive p : App.isActive a (F p) = App.isActive a p.
Proof.
  cbn beta. destruct (App.isActive a p) eqn:E; cbn [negb]; [|done].
  unfold App.isActive in *. by rewrite G_id.
Qed.

Lemma onActive_find (l : list Project.t) :
  List.find (App.isActive a) (F <$> l) = G <$> List.find (App.isActive a) l.
Proof.
  rewrite (find_fmap_stable _ F l onActive_isActive).
  destruct (List.find (App.isActive a) l) as [p|] eqn:E; [|done].
  apply find_some in E as [_ E]. cbn. by rewrite E.
Qed.

Lemma onActive_other (l : list Project.t) (i : nat) p :
  l !! i = Some p → Some (Project.id p) ≠ a → (F <$> l) !! i = Some p.
Proof.
  intros Hl Hne. rewrite list_lookup_fmap, Hl. cbn. f_equal.
  unfold App.isActive. by rewrite bool_decide_eq_false_2.
Qed.

Lemma onActive_ids (l : list Project.t) :
  Project.id <$> (F <$> l) = Project.id <$> l.
Proof.
  rewrite <- list_fmap_compose. apply list_fmap_ext. intros _ p _. cbn.
  destruct (negb _); [done|apply G_id].
Qed.

End OnActive.

Lemma activeProject_id st p :
  App.activeProject st = Some p → App.activeProjectId st = Some (Project.id p).
Proof.
  intros H. apply find_some in H as [_ H].
  unfold App.isActive in H. by apply bool_decide_eq_true in H.
Qed.

Lemma updateActiveProjectVideos_active u now st :
  JS.falsy (App.activeProjectId st) = false →
  App.activeProject (App.updateActiveProjectVideos u now st)
  = (λ proj,
       Project.with_videos
         (match u with inr fn => fn (Project.videos proj) | inl vs => vs end)
         now proj)
    <$> App.activeProject st.
Proof.
  intros Hf. unfold App.updateActiveProjectVideos. rewrite Hf.
  unfold App.activeProject. cbn. by apply onActive_find.
Qed.

Lemma updateActiveProjectVideos_frame u now :
  touchesOnlyActive (App.updateActiveProjectVideos u now).
Proof.
  intros st. unfold App.updateActiveProjectVideos.
  destruct (JS.falsy (App.activeProjectId st)) eqn:Hf; [done|].
  cbn. split_and!; [by rewrite length_fmap| |done].
  intros i p Hi Hne. by apply onActive_other.
Qed.

Lemma handleFiles_frame files uuids urls now :
  touchesOnlyActive (App.handleFiles files uuids urls now).
Proof.
  intros st. unfold App.handleFiles. destruct files as [files|]; [|done].
  destruct (JS.falsy (App.activeProjectId st)) eqn:Hf; [done|].
  unfold App.updateActiveProjectVideos. cbn. rewrite Hf. cbn.
  split_and!; [by rewrite length_fmap| |done].
  intros i p Hi Hne. by apply onActive_other.
Qed.

Lemma addToGallery_frame src type videoName uuid t1 t2 :
  touchesOnlyActive (App.addToGallery src type videoName uuid t1 t2).
Proof.
  intros st. unfold App.addToGallery.
  destruct (JS.falsy (App.activeProjectId st)) eqn:Hf; [done|].
  cbn. split_and!; [by rewrite length_fmap| |done].
  intros i p Hi Hne. by apply onActive_other.
Qed.

Lemma removeFromGallery_frame id :
  touchesOnlyActive (App.removeFromGallery id).
Proof.
  intros st. unfold App.removeFromGallery.
  destruct (JS.falsy (App.activeProjectId st)) eqn:Hf; [done|].
  cbn. split_and!; [by rewrite length_fmap| |done].
  intros i p Hi Hne. by apply onActive_other.
Qed.

(** C10: adding files, adding to the gallery, removing from the gallery
    and updating the videos each keep the number of projects, leave every
    project whose [id] is not the active one exactly as it was, and change
    nothing at all (store, selection, view, object URLs) when no project
    is active. *)
Theorem per_project_handlers_touch_only_active :
  (∀ files uuids urls now,
     touchesOnlyActive (App.handleFiles files uuids urls now))
  ∧ (∀ src type videoName uuid t_created t_modified,
       touchesOnlyActive
         (App.addToGallery src type videoName uuid t_created t_modified))
  ∧ (∀ id, touchesOnlyActive (App.removeFromGallery id))
  ∧ (∀ u now, touchesOnlyActive (App.updateActiveProjectVideos u now)).
Proof.
  split_and!; intros.
  - apply handleFiles_frame.
  - apply addToGallery_frame.
  - apply removeFromGallery_frame.
  - apply updateActiveProjectVideos_frame.
Qed.

(** *** Importing files *)

Lemma newVideosOf_files files uuids urls :
  VideoItem.file <$> App.newVideosOf files uuids urls
  = filter (λ f, App.isVideoFile f = true) files.
Proof.
  unfold App.newVideosOf. rewrite fmap_imap.
  rewrite (imap_ext _ (const id)) by done.
  by rewrite imap_const, list_fmap_id.
Qed.

Lemma newVideosOf_names files uuids urls :
  VideoItem.name <$> App.newVideosOf files uuids urls
  = File.name <$> filter (λ f, App.isVideoFile f = true) files.
Proof.
  unfold App.newVideosOf. rewrite fmap_imap.
  rewrite (imap_ext _ (const File.name)) by done.
  by rewrite imap_const.
Qed.

Lemma handleFiles_active files uuids urls now st :
  JS.falsy (App.activeProjectId st) = false →
  App.activeProject (App.handleFiles (Some files) uuids urls now st)
  = (λ proj,
       Project.with_videos
         (Project.videos proj ++ App.newVideosOf files uuids urls) now proj)
    <$> App.activeProject st.
Proof.
  intros Hf. unfold App.handleFiles. rewrite Hf.
  unfold App.updateActiveProjectVideos. cbn. rewrite Hf.
  unfold App.activeProject. cbn. by apply onActive_find.
Qed.

Lemma startsWith_prefix (p s : string) :
  JS.startsWith p s = true ↔ ∃ rest, s = p +:+ rest.
Proof.
  unfold JS.startsWith. revert s.
  induction p as [|a p IH]; intros s.
  - split; [|by destruct s]. intros _. by exists s.
  - destruct s as [|b s].
    + split; [done|]. by intros [rest Hrest].
    + change (String.prefix (String a p) (String b s))
        with (if ascii_dec a b then String.prefix p s else false).
      destruct (ascii_dec a b) as [->|Hne].
      * rewrite IH. split; intros [rest Hrest]; exists rest.
        -- by rewrite Hrest.
        -- by injection Hrest.
      * split; [done|]. intros [rest Hrest]. by injection Hrest.
Qed.

(** The files [handleFiles] accepts are those whose MIME type starts with
    [video/]. *)
Lemma isVideoFile_video_type (f : File.t) :
  App.isVideoFile f = true ↔ ∃ rest, File.type f = "video/" +:+ rest.
Proof. apply startsWith_prefix. Qed.

(** C5: with a project open, [handleFiles] keeps exactly the files of
    video kind, which are the files whose type reads [video/] followed by
    anything, in their order and as often as they were offered, and puts
    the items built from them, each named after its file, at the end of
    the project's [videos]; with three files of which only the second is
    not a video, [videos] grows by the two items of the first and the
    third file, in that order. *)
Theorem handleFiles_appends_accepted_videos
  (st : App.State) (p : Project.t) (files : list File.t)
  (uuids urls : nat → string) (now : Z) :
  JS.falsy (App.activeProjectId st) = false →
  App.activeProject st = Some p →
  ∃ p',
    App.activeProject (App.handleFiles (Some files) uuids urls now st) = Some p'
    ∧ Project.videos p'
      = Project.videos p ++ App.newVideosOf files uuids urls
    ∧ VideoItem.file <$> App.newVideosOf files uuids urls
      = filter (λ f, App.isVideoFile f = true) files
    ∧ (∀ f, App.isVideoFile f = true
            ↔ ∃ rest, File.type f = "video/" +:+ rest)
    ∧ (∀ f, f ∈ VideoItem.file <$> App.newVideosOf files uuids urls
            ↔ f ∈ files ∧ ∃ rest, File.type f = "video/" +:+ rest)
    ∧ VideoItem.file <$> App.newVideosOf files uuids urls `sublist_of` files
    ∧ VideoItem.name <$> App.newVideosOf files uuids urls
      = File.name <$> (VideoItem.file <$> App.newVideosOf files uuids urls)
    ∧ (∀ f1 f2 f3 rest1 rest3,
         files = [f1; f2; f3] →
         File.type f1 = "video/" +:+ rest1 →
         (∀ rest2, File.type f2 ≠ "video/" +:+ rest2) →
         File.type f3 = "video/" +:+ rest3 →
         VideoItem.file <$> drop (length (Project.videos p)) (Project.videos p')
         = [f1; f3]
         ∧ length (Project.videos p') = (length (Project.videos p) + 2)%nat).
Proof.
  intros Hf Hp.
  exists (Project.with_videos
            (Project.videos p ++ App.newVideosOf files uuids urls) now p).
  rewrite handleFiles_active, Hp by done. cbn.
  split_and!; [done|done|apply newVideosOf_files|apply isVideoFile_video_type
              | | | |].
  - intros f.
    by rewrite newVideosOf_files, list_elem_of_filter, isVideoFile_video_type,
      (comm and).
  - rewrite newVideosOf_files. apply sublist_filter.
  - by rewrite newVideosOf_names, newVideosOf_files.
  - intros f1 f2 f3 rest1 rest3 -> H1 H2 H3.
    assert (App.isVideoFile f1 = true) by (apply isVideoFile_video_type; eauto).
    assert (App.isVideoFile f3 = true) by (apply isVideoFile_video_type; eauto).
    assert (App.isVideoFile f2 ≠ true)
      by (intros [rest2 Hrest2]%isVideoFile_video_type; by eapply H2).
    rewrite drop_app_length, length_app.
    unfold App.newVideosOf. rewrite !filter_cons, filter_nil.
    repeat case_decide; try congruence; done.
Qed.

(** The scenario of C5 on sample data: a video, a text file and another
    video are offered to project A, which holds no video yet; the two
    videos are imported, the first before the third. *)
Lemma handleFiles_appends_accepted_videos_witness :
  ∃ p',
    App.activeProject
      (App.handleFiles (Some [Sample.clip; Sample.notes; Sample.intro])
         Sample.uuids Sample.urls 5000 Sample.editingA) = Some p'
    ∧ VideoItem.file
        <$> drop (length (Project.videos Sample.projectA)) (Project.videos p')
      = [Sample.clip; Sample.intro]
    ∧ length (Project.videos p')
      = (length (Project.videos Sample.projectA) + 2)%nat
    ∧ VideoItem.name <$> Project.videos p'
      = (VideoItem.name <$> Project.videos Sample.projectA)
        ++ ["clip.mp4"; "intro.webm"].
Proof.
  destruct (handleFiles_appends_accepted_videos Sample.editingA Sample.projectA
              [Sample.clip; Sample.notes; Sample.intro]
              Sample.uuids Sample.urls 5000)
    as (p' & Hp' & Hvideos & Hfiles & _ & _ & _ & Hnames & Hscenario);
    [reflexivity|reflexivity|].
  exists p'.
  destruct (Hscenario Sample.clip Sample.notes Sample.intro "mp4" "webm")
    as [Hnew Hlen]; [reflexivity|reflexivity| |reflexivity|].
  { intros rest2 Hrest2. vm_compute in Hrest2. discriminate Hrest2. }
  split_and!; [exact Hp'|exact Hnew|exact Hlen|].
  rewrite Hvideos, fmap_app, Hnames, Hfiles. reflexivity.
Defined.

(** *** Removing from the gallery *)

Lemma StrSet_delete_idem id (s : JS.StrSet.t) :
  JS.StrSet.delete id (JS.StrSet.delete id s) = JS.StrSet.delete id s.
Proof.
  unfold JS.StrSet.delete. by apply list_filter_filter_l.
Qed.

Lemma StrSet_has_delete id (s : JS.StrSet.t) :
  JS.StrSet.has id (JS.StrSet.delete id s) = false.
Proof.
  unfold JS.StrSet.has, JS.StrSet.delete. apply bool_decide_eq_false_2.
  rewrite list_elem_of_filter. intros [H _]. by apply H.
Qed.

Lemma StrSet_delete_wf id (s : JS.StrSet.t) :
  JS.StrSet.wf s → JS.StrSet.wf (JS.StrSet.delete id s).
Proof. apply NoDup_filter. Qed.

Lemma StrSet_add_wf id (s : JS.StrSet.t) :
  JS.StrSet.wf s → JS.StrSet.wf (JS.StrSet.add id s).
Proof.
  unfold JS.StrSet.wf, JS.StrSet.add, JS.StrSet.has. intros Hs.
  case_bool_decide as Hin; [done|].
  apply NoDup_app. split_and!; [done| |apply NoDup_singleton].
  intros x Hx ->%list_elem_of_singleton. done.
Qed.

Lemma StrSet_of_list_wf l : JS.StrSet.wf (JS.StrSet.of_list l).
Proof.
  unfold JS.StrSet.of_list.
  assert (∀ s, JS.StrSet.wf s →
               JS.StrSet.wf (foldl (λ s x, JS.StrSet.add x s) s l)) as H.
  { induction l as [|x l IH]; intros s Hs; [done|].
    cbn. apply IH. by apply StrSet_add_wf. }
  apply H. apply NoDup_nil_2.
Qed.

Lemma removeFromGallery_active id st :
  JS.falsy (App.activeProjectId st) = false →
  App.activeProject (App.removeFromGallery id st)
  = (λ proj,
       Project.with_gallery
         (filter (λ item, GalleryItem.id item ≠ id) (Project.galleryItems proj))
         proj)
    <$> App.activeProject st.
Proof.
  intros Hf. unfold App.removeFromGallery. rewrite Hf.
  unfold App.activeProject. cbn. by apply onActive_find.
Qed.

Lemma removeFromGallery_idem id st :
  App.removeFromGallery id (App.removeFromGallery id st)
  = App.removeFromGallery id st.
Proof.
  unfold App.removeFromGallery.
  destruct (JS.falsy (App.activeProjectId st)) eqn:Hf; rewrite ?Hf; [done|].
  cbn. rewrite Hf. unfold App.setSelectedGalleryIds, App.setProjects. cbn.
  f_equal; [|apply StrSet_delete_idem].
  rewrite <- list_fmap_compose. apply list_fmap_ext. intros _ p _. cbn.
  destruct (App.isActive (App.activeProjectId st) p) eqn:E; cbn [negb].
  - unfold App.isActive in *. cbn. rewrite E. cbn [negb].
    unfold Project.with_gallery. cbn. f_equal.
    by apply list_filter_filter_l.
  - by rewrite E.
Qed.

(** C9: with a project open, [removeFromGallery id] filters the entry
    with that [id] out of the open project's [galleryItems] (no entry of
    the result carries [id]) and deletes [id] from the selection set; done
    twice, it leaves the state the first call produced. *)
Theorem removeFromGallery_deletes_and_is_idempotent
  (st : App.State) (id : string) :
  JS.falsy (App.activeProjectId st) = false →
  App.activeProject (App.removeFromGallery id st)
  = (λ proj,
       Project.with_gallery
         (filter (λ item, GalleryItem.id item ≠ id) (Project.galleryItems proj))
         proj)
    <$> App.activeProject st
  ∧ (∀ p', App.activeProject (App.removeFromGallery id st) = Some p' →
           id ∉ (GalleryItem.id <$> Project.galleryItems p'))
  ∧ App.selectedGalleryIds (App.removeFromGallery id st)
    = JS.StrSet.delete id (App.selectedGalleryIds st)
  ∧ JS.StrSet.has id (App.selectedGalleryIds (App.removeFromGallery id st))
    = false
  ∧ App.removeFromGallery id (App.removeFromGallery id st)
    = App.removeFromGallery id st.
Proof.
  intros Hf.
  assert (App.selectedGalleryIds (App.removeFromGallery id st)
          = JS.StrSet.delete id (App.selectedGalleryIds st)) as Hsel.
  { unfold App.removeFromGallery. by rewrite Hf. }
  split_and!.
  - by apply removeFromGallery_active.
  - intros p'. rewrite removeFromGallery_active by done.
    destruct (App.activeProject st) as [p|]; [|done].
    intros [= <-]. cbn. rewrite list_elem_of_fmap.
    intros (item & -> & Hin).
    apply list_elem_of_filter in Hin as [Hne _]. by apply Hne.
  - exact Hsel.
  - rewrite Hsel. apply StrSet_has_delete.
  - apply removeFromGallery_idem.
Qed.

(** C9 on sample data: deleting a selected capture of project A. *)
Lemma removeFromGallery_deletes_and_is_idempotent_witness :
  App.projects
    (App.removeFromGallery (GalleryItem.id Sample.item1) Sample.editingA)
  = [Project.with_gallery [Sample.item2] Sample.projectA]
  ∧ App.selectedGalleryIds
      (App.removeFromGallery (GalleryItem.id Sample.item1) Sample.editingA)
    = [GalleryItem.id Sample.item2]
  ∧ JS.StrSet.has (GalleryItem.id Sample.item1)
      (App.selectedGalleryIds
         (App.removeFromGallery (GalleryItem.id Sample.item1) Sample.editingA))
    = false.
Proof.
  split_and!; [reflexivity|reflexivity|].
  apply (removeFromGallery_deletes_and_is_idempotent Sample.editingA
           (GalleryItem.id Sample.item1)).
  reflexivity.
Defined.

(** *** The active project and the store *)

Lemma updateActiveProjectVideos_ids u now st :
  App.activeProjectId (App.updateActiveProjectVideos u now st)
  = App.activeProjectId st
  ∧ Project.id <$> App.projects (App.updateActiveProjectVideos u now st)
    = Project.id <$> App.projects st.
Proof.
  unfold App.updateActiveProjectVideos.
  destruct (JS.falsy (App.activeProjectId st)); [done|].
  cbn. split; [done|]. by apply onActive_ids.
Qed.

Lemma handleFiles_ids files uuids urls now st :
  App.activeProjectId (App.handleFiles files uuids urls now st)
  = App.activeProjectId st
  ∧ Project.id <$> App.projects (App.handleFiles files uuids urls now st)
    = Project.id <$> App.projects st.
Proof.
  unfold App.handleFiles. destruct files as [files|]; [|done].
  destruct (JS.falsy (App.activeProjectId st)) eqn:Hf; [done|].
  unfold App.updateActiveProjectVideos. cbn. rewrite Hf. cbn.
  split; [done|]. by apply onActive_ids.
Qed.

Lemma addToGallery_ids src type videoName uuid t1 t2 st :
  App.activeProjectId (App.addToGallery src type videoName uuid t1 t2 st)
  = App.activeProjectId st
  ∧ Project.id
      <$> App.projects (App.addToGallery src type videoName uuid t1 t2 st)
    = Project.id <$> App.projects st.
Proof.
  unfold App.addToGallery.
  destruct (JS.falsy (App.activeProjectId st)); [done|].
  cbn. split; [done|]. by apply onActive_ids.
Qed.

Lemma removeFromGallery_ids id st :
  App.activeProjectId (App.removeFromGallery id st) = App.activeProjectId st
  ∧ Project.id <$> App.projects (App.removeFromGallery id st)
    = Project.id <$> App.projects st.
Proof.
  unfold App.removeFromGallery.
  destruct (JS.falsy (App.activeProjectId st)); [done|].
  cbn. split; [done|]. by apply onActive_ids.
Qed.

Lemma deleteSelected_ids confirmed st :
  App.activeProjectId (App.deleteSelected confirmed st) = App.activeProjectId st
  ∧ Project.id <$> App.projects (App.deleteSelected confirmed st)
    = Project.id <$> App.projects st.
Proof.
  unfold App.deleteSelected.
  destruct (App.activeProject st); [|done]. destruct confirmed; [|done].
  cbn. split; [done|]. by apply onActive_ids.
Qed.

Lemma activeInStore_same_ids st st' :
  App.activeProjectId st' = App.activeProjectId st
  ∧ Project.id <$> App.projects st' = Project.id <$> App.projects st →
  activeInStore st → activeInStore st'.
Proof. unfold activeInStore. by intros [-> ->]. Qed.

Lemma deleteProject_of_active st pid :
  App.activeProjectId st = Some pid →
  App.activeProjectId (App.deleteProject true pid st) = None.
Proof. intros H. unfold App.deleteProject. by rewrite decide_True. Qed.

Lemma deleteProject_of_other confirmed st pid :
  App.activeProjectId st ≠ Some pid →
  App.activeProjectId (App.deleteProject confirmed pid st)
  = App.activeProjectId st
  ∧ App.activeProject (App.deleteProject confirmed pid st)
    = App.activeProject st.
Proof.
  intros Hne. unfold App.deleteProject. destruct confirmed; [|done].
  rewrite decide_False by done. split; [done|].
  unfold App.activeProject. cbn. apply find_filter_other.
  intros p Hp Hpid. apply Hne. unfold App.isActive in Hp.
  apply bool_decide_eq_true in Hp. by rewrite <- Hp, Hpid.
Qed.

Lemma deleteProject_activeInStore confirmed pid st :
  activeInStore st → activeInStore (App.deleteProject confirmed pid st).
Proof.
  unfold activeInStore, App.deleteProject. destruct confirmed; [|done].
  case_decide as Ha; [done|]. cbn.
  destruct (App.activeProjectId st) as [a|]; [|done].
  rewrite !list_elem_of_fmap. intros (p & -> & Hin). exists p. split; [done|].
  apply list_elem_of_filter. split; [|done]. congruence.
Qed.

Lemma handle_activeInStore e st :
  activeInStore st → activeInStore (UI.handle e st).
Proof.
  destruct e; cbn [UI.handle]; try done.
  - (* ConfirmCreateProject *)
    unfold App.confirmCreateProject. case_decide; [done|].
    intros _. unfold activeInStore. cbn. apply list_elem_of_here.
  - (* ClickDeleteProject *)
    destruct (App.projects st !! card); [|done].
    apply deleteProject_activeInStore.
  - (* ClickProjectCard *)
    destruct (App.projects st !! card) as [p|] eqn:E; [|done].
    intros _. unfold activeInStore. cbn.
    apply list_elem_of_fmap. exists p. split; [done|].
    by eapply list_elem_of_lookup_2.
  - (* SwitchView *)
    unfold App.switchView. by destruct (JS.falsy _).
  - (* MoveVideo *)
    case_decide; [|done]. destruct (JS.defined _); [|done].
    apply activeInStore_same_ids, updateActiveProjectVideos_ids.
  - (* DeleteVideo *)
    destruct (UI.shownVideos st !! index); [|done].
    apply activeInStore_same_ids, updateActiveProjectVideos_ids.
  - apply activeInStore_same_ids, updateActiveProjectVideos_ids.
  - apply activeInStore_same_ids, updateActiveProjectVideos_ids.
  - apply activeInStore_same_ids, handleFiles_ids.
  - apply activeInStore_same_ids, handleFiles_ids.
  - apply activeInStore_same_ids, addToGallery_ids.
  - apply activeInStore_same_ids, removeFromGallery_ids.
  - (* ToggleSelectAll *)
    unfold App.toggleSelectAll. destruct (App.activeProject st); [|done].
    by case_decide.
  - apply activeInStore_same_ids, deleteSelected_ids.
  - (* DownloadBatchZip *)
    unfold App.downloadBatchZip. destruct (App.activeProject st); [|done].
    case_decide; [done|]. by destruct zip_ok.
Qed.

Lemma reachable_activeInStore st : UI.reachable st → activeInStore st.
Proof.
  induction 1 as [|e st _ IH]; [done|]. by apply handle_activeInStore.
Qed.

(** C7: deleting the project that is open leaves no project open;
    deleting any other project (or declining the confirmation) leaves the
    active identifier and the project it names as they were; and in every
    state the interface can reach, the active identifier is [null] or the
    [id] of a project of the store. *)
Theorem deleteProject_keeps_active_in_store
  (st : App.State) (pid : string) (confirmed : bool) :
  UI.reachable st →
  (App.activeProjectId st = Some pid →
   App.activeProjectId (App.deleteProject true pid st) = None)
  ∧ (App.activeProjectId st ≠ Some pid →
     App.activeProjectId (App.deleteProject confirmed pid st)
     = App.activeProjectId st
     ∧ App.activeProject (App.deleteProject confirmed pid st)
       = App.activeProject st)
  ∧ activeInStore st
  ∧ activeInStore (App.deleteProject confirmed pid st).
Proof.
  intros Hr. split_and!.
  - apply deleteProject_of_active.
  - apply deleteProject_of_other.
  - by apply reachable_activeInStore.
  - by apply deleteProject_activeInStore, reachable_activeInStore.
Qed.

Lemma reachable_run es st :
  UI.reachable st → UI.reachable (foldl (λ st e, UI.handle e st) st es).
Proof.
  revert st. induction es as [|e es IH]; intros st Hr; [done|].
  cbn. apply IH. by constructor.
Qed.

(** C7 on the scenario "create A, create B, delete A while B is open". *)
Lemma deleteProject_keeps_active_in_store_witness :
  App.activeProjectId
    (App.deleteProject true (Project.id Sample.projectA) Sample.afterAThenB)
  = Some (Project.id Sample.projectB)
  ∧ App.activeProject
      (App.deleteProject true (Project.id Sample.projectA) Sample.afterAThenB)
    = App.activeProject Sample.afterAThenB
  ∧ App.activeProject Sample.afterAThenB = Some Sample.projectB
  ∧ activeInStore Sample.afterAThenB.
Proof.
  destruct (deleteProject_keeps_active_in_store Sample.afterAThenB
              (Project.id Sample.projectA) true)
    as (_ & Hother & Hinv & _).
  { apply reachable_run. constructor. }
  destruct Hother as [Hid Hproj]; [vm_compute; discriminate|].
  split_and!; [exact Hid|exact Hproj|reflexivity|exact Hinv].
Defined.

(** *** Creating a project *)

Lemma confirmCreateProject_blank uuid t_created t_modified st :
  JS.trim (App.newProjectName st) = "" →
  App.confirmCreateProject uuid t_created t_modified st = st.
Proof. intros H. unfold App.confirmCreateProject. by rewrite decide_True. Qed.

(** C3, as the code has it: when the name typed in the dialog is not
    blank, [confirmCreateProject] puts the new project at the front of the
    store's sequence, makes it the active project and shows the timeline;
    when the name is blank it changes nothing. *)
Theorem confirmCreateProject_prepends_and_opens
  (st : App.State) (uuid : string) (t_created t_modified : Z) :
  (JS.trim (App.newProjectName st) ≠ "" →
   App.projects (App.confirmCreateProject uuid t_created t_modified st)
   = Project.mk uuid (App.newProjectName st) (App.newProjectRatio st)
       t_created t_modified [] []
     :: App.projects st
   ∧ App.activeProjectId
       (App.confirmCreateProject uuid t_created t_modified st)
     = Some uuid
   ∧ App.activeProject (App.confirmCreateProject uuid t_created t_modified st)
     = Some (Project.mk uuid (App.newProjectName st) (App.newProjectRatio st)
               t_created t_modified [] [])
   ∧ App.currentView (App.confirmCreateProject uuid t_created t_modified st)
     = timeline)
  ∧ (JS.trim (App.newProjectName st) = "" →
     App.confirmCreateProject uuid t_created t_modified st = st).
Proof.
  split; [|apply confirmCreateProject_blank].
  intros H. unfold App.confirmCreateProject. rewrite decide_False by done.
  split_and!; try done.
  unfold App.activeProject, App.isActive. cbn.
  by rewrite bool_decide_eq_true_2.
Qed.

(** C3 on sample data: project B is created while project A is in the
    store. *)
Lemma confirmCreateProject_prepends_and_opens_witness :
  App.projects
    (App.confirmCreateProject (Project.id Sample.projectB) 4000 4000
       Sample.creatingB)
  = [Sample.projectB; Sample.projectA]
  ∧ App.activeProjectId
      (App.confirmCreateProject (Project.id Sample.projectB) 4000 4000
         Sample.creatingB)
    = Some (Project.id Sample.projectB)
  ∧ App.activeProject
      (App.confirmCreateProject (Project.id Sample.projectB) 4000 4000
         Sample.creatingB)
    = Some Sample.projectB
  ∧ App.currentView
      (App.confirmCreateProject (Project.id Sample.projectB) 4000 4000
         Sample.creatingB)
    = timeline.
Proof.
  apply (proj1 (confirmCreateProject_prepends_and_opens Sample.creatingB
                  (Project.id Sample.projectB) 4000 4000)).
  vm_compute. discriminate.
Defined.

(** C3 as stated fails: with project A in the store, the project created
    next is not at the end of the sequence. *)
Lemma confirmCreateProject_does_not_append :
  App.projects
    (App.confirmCreateProject (Project.id Sample.projectB) 4000 4000
       Sample.creatingB)
  ≠ App.projects Sample.creatingB ++ [Sample.projectB].
Proof. vm_compute. intros H. discriminate H. Qed.

(** *** Reordering the timeline *)

Section MoveVideo.
Implicit Types (videos : list VideoItem.t) (index : nat).

Lemma get_defined {A} (l : list A) (i : nat) : JS.get i (Some <$> l) = l !! i.
Proof.
  unfold JS.get. rewrite list_lookup_fmap. by destruct (l !! i).
Qed.

Lemma set_in_range {A} (l : list (option A)) (i : nat) v :
  (i < length l)%nat → JS.set i v l = <[i := v]> l.
Proof. intros H. unfold JS.set. by rewrite decide_True. Qed.

Lemma defined_fmap_Some {A} (l : list A) : JS.defined (Some <$> l) = Some l.
Proof. induction l as [|x l IH]; [done|]. cbn. by rewrite IH. Qed.

(** A move to the left from a position other than the first exchanges the
    item with its left neighbour. *)
Lemma moveVideo_left videos index a b :
  videos !! index = Some a → videos !! S index = Some b →
  TimelineEditor.moveVideo (Some <$> videos) (S index) TimelineEditor.Left
  = Some <$> <[S index := a]> (<[index := b]> videos).
Proof.
  intros Ha Hb. unfold TimelineEditor.moveVideo.
  rewrite decide_True by lia. replace (S index - 1)%nat with index by lia.
  rewrite !get_defined, Ha, Hb.
  apply lookup_lt_Some in Hb as Hlt.
  rewrite (set_in_range (Some <$> videos)) by (rewrite length_fmap; lia).
  rewrite set_in_range by (rewrite length_insert, length_fmap; lia).
  by rewrite !list_fmap_insert.
Qed.

(** A move to the right from a position other than the last exchanges the
    item with its right neighbour. *)
Lemma moveVideo_right videos index a b :
  videos !! index = Some a → videos !! S index = Some b →
  TimelineEditor.moveVideo (Some <$> videos) index TimelineEditor.Right
  = Some <$> <[S index := a]> (<[index := b]> videos).
Proof.
  intros Ha Hb. unfold TimelineEditor.moveVideo.
  apply lookup_lt_Some in Hb as Hlt.
  rewrite decide_True by (rewrite length_fmap; lia).
  replace (index + 1)%nat with (S index) by lia.
  rewrite !get_defined, Ha, Hb.
  rewrite (set_in_range (Some <$> videos)) by (rewrite length_fmap; lia).
  rewrite set_in_range by (rewrite length_insert, length_fmap; lia).
  rewrite !list_fmap_insert. by rewrite list_insert_insert_ne by lia.
Qed.

Lemma moveVideo_first videos :
  TimelineEditor.moveVideo (Some <$> videos) 0 TimelineEditor.Left
  = Some <$> videos.
Proof. done. Qed.

Lemma moveVideo_last videos index :
  S index = length videos →
  TimelineEditor.moveVideo (Some <$> videos) index TimelineEditor.Right
  = Some <$> videos.
Proof.
  intros H. unfold TimelineEditor.moveVideo.
  by rewrite decide_False by (rewrite length_fmap; lia).
Qed.

(** What one call does to a list it is given an index of. *)
Lemma moveVideo_in_range videos index direction :
  (index < length videos)%nat →
  ∃ videos',
    TimelineEditor.moveVideo (Some <$> videos) index direction
    = Some <$> videos'
    ∧ length videos' = length videos
    ∧ videos' ≡ₚ videos
    ∧ match direction with
      | TimelineEditor.Left =>
          if decide (index = 0)%nat then videos' = videos
          else videos' !! (index - 1)%nat = videos !! index
               ∧ videos' !! index = videos !! (index - 1)%nat
               ∧ ∀ k, k ≠ index → k ≠ (index - 1)%nat →
                      videos' !! k = videos !! k
      | TimelineEditor.Right =>
          if decide (S index = length videos) then videos' = videos
          else videos' !! (index + 1)%nat = videos !! index
               ∧ videos' !! index = videos !! (index + 1)%nat
               ∧ ∀ k, k ≠ index → k ≠ (index + 1)%nat →
                      videos' !! k = videos !! k
      end.
Proof.
  intros Hlt. destruct direction.
  - destruct index as [|i].
    + exists videos. by rewrite moveVideo_first.
    + destruct (lookup_lt_is_Some_2 videos i) as [b Hb]; [lia|].
      destruct (lookup_lt_is_Some_2 videos (S i)) as [a Ha]; [lia|].
      exists (<[S i := b]> (<[i := a]> videos)).
      rewrite (moveVideo_left videos i b a) by done.
      rewrite !length_insert.
      split_and!; [done|done|by apply swap_adjacent_perm|].
      rewrite decide_False by lia. replace (S i - 1)%nat with i by lia.
      split_and!.
      * rewrite list_lookup_insert_ne by lia.
        rewrite list_lookup_insert_eq by lia. done.
      * rewrite list_lookup_insert_eq by (rewrite length_insert; lia). done.
      * intros k ? ?. by rewrite !list_lookup_insert_ne by lia.
  - destruct (decide (S index = length videos)) as [Hlast|Hlast].
    + exists videos. by rewrite moveVideo_last.
    + destruct (lookup_lt_is_Some_2 videos index) as [a Ha]; [lia|].
      destruct (lookup_lt_is_Some_2 videos (S index)) as [b Hb]; [lia|].
      exists (<[S index := a]> (<[index := b]> videos)).
      rewrite (moveVideo_right videos index a b) by done.
      rewrite !length_insert.
      replace (index + 1)%nat with (S index) by lia.
      split_and!; [done|done|by apply swap_adjacent_perm|..].
      * rewrite list_lookup_insert_eq by (rewrite length_insert; lia). done.
      * rewrite list_lookup_insert_ne by lia.
        rewrite list_lookup_insert_eq by lia. done.
      * intros k ? ?. by rewrite !list_lookup_insert_ne by lia.
Qed.

Lemma moveVideos_in_range calls videos :
  Forall (λ c : nat * TimelineEditor.Direction, (c.1 < length videos)%nat)
    calls →
  ∃ videos',
    TimelineEditor.moveVideos calls (Some <$> videos) = Some <$> videos'
    ∧ length videos' = length videos
    ∧ videos' ≡ₚ videos.
Proof.
  revert videos. induction calls as [|[index direction] calls IH];
    intros videos Hall.
  { by exists videos. }
  apply Forall_cons in Hall as [Hlt Hall]. cbn in Hlt.
  destruct (moveVideo_in_range videos index direction Hlt)
    as (vs1 & Heq & Hlen & Hperm & _).
  destruct (IH vs1) as (vs2 & Heq2 & Hlen2 & Hperm2).
  { by rewrite Hlen. }
  exists vs2. unfold TimelineEditor.moveVideos in *. cbn.
  rewrite Heq, Heq2. split_and!; [done|congruence|by etrans].
Qed.

End MoveVideo.

(** C8: for every sequence of [moveVideo] calls whose indices are
    positions of the list, the list handed over holds no [undefined], has
    the same length, and its [id]s are a rearrangement of the original
    ones; a single call exchanges the item at [index] with its left or
    right neighbour, and leaves the list as it is for a move to the left
    at index 0 or to the right at the last index. *)
Theorem moveVideo_keeps_the_multiset_of_ids
  (videos : list VideoItem.t) (calls : list (nat * TimelineEditor.Direction))
  (index : nat) (direction : TimelineEditor.Direction) :
  Forall (λ c : nat * TimelineEditor.Direction, (c.1 < length videos)%nat)
    calls →
  (index < length videos)%nat →
  (∃ videos',
     TimelineEditor.moveVideos calls (Some <$> videos) = Some <$> videos'
     ∧ VideoItem.id <$> videos' ≡ₚ VideoItem.id <$> videos)
  ∧ (∃ videos',
       TimelineEditor.moveVideo (Some <$> videos) index direction
       = Some <$> videos'
       ∧ VideoItem.id <$> videos' ≡ₚ VideoItem.id <$> videos
       ∧ match direction with
         | TimelineEditor.Left =>
             if decide (index = 0)%nat then videos' = videos
             else videos' !! (index - 1)%nat = videos !! index
                  ∧ videos' !! index = videos !! (index - 1)%nat
                  ∧ ∀ k, k ≠ index → k ≠ (index - 1)%nat →
                         videos' !! k = videos !! k
         | TimelineEditor.Right =>
             if decide (S index = length videos) then videos' = videos
             else videos' !! (index + 1)%nat = videos !! index
                  ∧ videos' !! index = videos !! (index + 1)%nat
                  ∧ ∀ k, k ≠ index → k ≠ (index + 1)%nat →
                         videos' !! k = videos !! k
         end).
Proof.
  intros Hcalls Hlt. split.
  - destruct (moveVideos_in_range calls videos Hcalls)
      as (videos' & Heq & _ & Hperm).
    exists videos'. split; [done|]. by rewrite Hperm.
  - destruct (moveVideo_in_range videos index direction Hlt)
      as (videos' & Heq & _ & Hperm & Hshape).
    exists videos'. split_and!; [done|by rewrite Hperm|done].
Qed.

(** C8 on three clips: four calls in a row, and one move to the left. *)
Lemma moveVideo_keeps_the_multiset_of_ids_witness :
  (∃ videos',
     TimelineEditor.moveVideos
       [(1%nat, TimelineEditor.Left); (0%nat, TimelineEditor.Left);
        (2%nat, TimelineEditor.Right); (0%nat, TimelineEditor.Right)]
       (Some <$> [Sample.video1; Sample.video2; Sample.video3])
     = Some <$> videos'
     ∧ VideoItem.id <$> videos'
       ≡ₚ VideoItem.id <$> [Sample.video1; Sample.video2; Sample.video3])
  ∧ TimelineEditor.moveVideo
      (Some <$> [Sample.video1; Sample.video2; Sample.video3]) 1
      TimelineEditor.Left
    = Some <$> [Sample.video2; Sample.video1; Sample.video3].
Proof.
  destruct (moveVideo_keeps_the_multiset_of_ids
              [Sample.video1; Sample.video2; Sample.video3]
              [(1%nat, TimelineEditor.Left); (0%nat, TimelineEditor.Left);
               (2%nat, TimelineEditor.Right); (0%nat, TimelineEditor.Right)]
              1 TimelineEditor.Left) as [Hseq _].
  - repeat (constructor; [cbn; lia|]). constructor.
  - cbn. lia.
  - split; [exact Hseq|reflexivity].
Defined.

(** Outside the list the destructuring assignment writes [undefined]:
    this is why the indices of C8 are positions of the list. *)
Example moveVideo_out_of_range :
  TimelineEditor.moveVideo (Some <$> [Sample.video1]) 1 TimelineEditor.Left
  = [None; Some Sample.video1].
Proof. reflexivity. Qed.

(** The action behind the arrows of a card always hands over a list
    without [undefined]. *)
Lemma moveVideo_of_card_defined st index direction :
  (index < length (UI.shownVideos st))%nat →
  is_Some
    (JS.defined
       (TimelineEditor.moveVideo (Some <$> UI.shownVideos st) index direction)).
Proof.
  intros Hlt.
  destruct (moveVideo_in_range (UI.shownVideos st) index direction Hlt)
    as (videos' & -> & _).
  rewrite defined_fmap_Some. by eexists.
Qed.

(** *** Capture requests *)

Lemma Math_max_zero (x : float) :
  JS.Math_max 0 x
  = if is_nan x then nan else if ltb 0 x then x else 0%float.
Proof.
  unfold JS.Math_max. change (is_nan 0) with false. cbn [orb].
  destruct (is_nan x); [done|]. destruct (ltb 0 x); [done|].
  change (get_sign 0) with false. by destruct (ltb x 0).
Qed.

(** There is one [NaN]. *)
Lemma is_nan_nan (x : float) : is_nan x = true → x = nan.
Proof.
  unfold is_nan. rewrite FloatAxioms.eqb_spec. intros H.
  apply FloatAxioms.Prim2SF_inj.
  destruct (FloatOps.Prim2SF x) as [s|s| |s m e] eqn:E; try done.
  - by destruct s.
  - cbn in H. unfold SpecFloat.SFeqb, SpecFloat.SFcompare in H.
    destruct s; cbn in H.
    all: rewrite ?Z.compare_refl, ?Pos.compare_refl in H; cbn in H;
      try rewrite Pos.compare_refl in H; done.
Qed.

(** [Math.max(0, x)] is a time the element accepts unless [x] is [NaN]
    or [Infinity]. *)
Lemma Math_max_zero_finite (x : float) :
  is_finite (JS.Math_max 0 x)
  = negb (is_nan x || (is_infinity x && ltb 0 x)).
Proof.
  rewrite Math_max_zero. unfold is_finite.
  destruct (is_nan x) eqn:Hnan; [done|].
  destruct (ltb 0 x); [by rewrite Hnan, andb_true_r|].
  by rewrite andb_false_r.
Qed.

Lemma safe_end_of_endless (d : float) :
  is_nan d = true ∨ d = infinity →
  is_finite (JS.Math_max 0 (d - 0.1)%float) = false.
Proof. by intros [->%is_nan_nan| ->]. Qed.

(** C6, as the code has it: the thumbnails of a video card are captured
    at 0.1 and at [Math.max(0, duration - 0.1)]; the frame processor
    captures at exactly 0 and at [Math.max(0, duration - 0.1)], and both
    store the two frames.  The last request is [duration - 0.1] when that
    is positive and 0 when it is not; for a duration of 10 it is 9.9,
    which is not 10.  This is so whenever the last time is one the
    element accepts.  When it is not (it is then [NaN] or [Infinity], as
    for an element that reports the duration [NaN] or [Infinity]), the
    assignment throws: the last frame is never requested, the end
    thumbnail and [lastFrame] stay as they were, and only the first frame
    is stored. *)
Theorem automatic_capture_requests
  (frame : Media.Video → string) (video : Media.Video)
  (st : FrameProcessor.State) (th : TimelineEditor.Thumbs) :
  let time := JS.Math_max 0 (Media.duration video - 0.1)%float in
  let card := TimelineEditor.generateThumbs frame video th in
  let processor :=
    FrameProcessor.processAutomaticFrames frame (Some video) true st in
  (if is_finite time then
     Media.requested card.2 = [0.1%float; time]
     ∧ TimelineEditor.startFrameImg card.1
       = Some (frame (Media.mkVideo (Media.duration video) 0.1))
     ∧ TimelineEditor.endFrameImg card.1
       = Some (frame (Media.mkVideo (Media.duration video) time))
     ∧ Media.requested <$> processor.2 = Some [0%float; time]
     ∧ FrameProcessor.firstFrame processor.1
       = Some (frame (Media.mkVideo (Media.duration video) 0))
     ∧ FrameProcessor.lastFrame processor.1
       = Some (frame (Media.mkVideo (Media.duration video) time))
   else
     Media.requested card.2 = [0.1%float]
     ∧ TimelineEditor.startFrameImg card.1
       = Some (frame (Media.mkVideo (Media.duration video) 0.1))
     ∧ TimelineEditor.endFrameImg card.1 = TimelineEditor.endFrameImg th
     ∧ Media.requested <$> processor.2 = Some [0%float]
     ∧ FrameProcessor.firstFrame processor.1
       = Some (frame (Media.mkVideo (Media.duration video) 0))
     ∧ FrameProcessor.lastFrame processor.1 = FrameProcessor.lastFrame st)
  ∧ TimelineEditor.loadingThumbs card.1 = false
  ∧ FrameProcessor.isProcessing processor.1 = false
  ∧ is_finite time
    = negb (is_nan (Media.duration video - 0.1)%float
            || (is_infinity (Media.duration video - 0.1)%float
                && ltb 0 (Media.duration video - 0.1)%float))
  ∧ (is_nan (Media.duration video) = true ∨ Media.duration video = infinity →
     is_finite time = false)
  ∧ time
    = (if is_nan (Media.duration video - 0.1)%float then nan
       else if ltb 0 (Media.duration video - 0.1)%float
            then (Media.duration video - 0.1)%float
            else 0%float)
  ∧ JS.Math_max 0 (Media.duration Sample.tenSeconds - 0.1)%float = 9.9%float
  ∧ is_finite 9.9 = true
  ∧ PrimFloat.eqb 9.9 10 = false.
Proof.
  intros time card processor.
  split_and!;
    [|subst card processor..
     |apply Math_max_zero_finite|apply safe_end_of_endless
     |apply Math_max_zero|done|done|done].
  - subst card processor. unfold TimelineEditor.generateThumbs,
      FrameProcessor.processAutomaticFrames, TimelineEditor.extract,
      FrameProcessor.captureAtTime, Media.seek.
    cbn. fold time. by destruct (is_finite time).
  - unfold TimelineEditor.generateThumbs, TimelineEditor.extract, Media.seek.
    cbn. fold time. by destruct (is_finite time).
  - unfold FrameProcessor.processAutomaticFrames,
      FrameProcessor.captureAtTime, Media.seek.
    cbn. fold time. by destruct (is_finite time).
Qed.

(** C6 as stated fails: on a video of 10 seconds the frame processor asks
    for the first frame at 0, not at 0 + 0.1. *)
Lemma processAutomaticFrames_first_capture_at_zero :
  Media.requested
    <$> (FrameProcessor.processAutomaticFrames Sample.still
           (Some Sample.tenSeconds) true Sample.loading).2
  ≠ Some [(0 + 0.1)%float; (Media.duration Sample.tenSeconds - 0.1)%float].
Proof.
  intros H.
  apply (f_equal (λ o, match o with
                       | Some (t :: _) => PrimFloat.eqb t 0
                       | _ => false
                       end)) in H.
  vm_compute in H. discriminate H.
Qed.

(** For a clip shorter than 0.1 s the last request is clamped to 0, and
    the card's first request lies beyond the end. *)
Example generateThumbs_short_clip :
  Media.requested
    (TimelineEditor.generateThumbs Sample.still Sample.twentiethOfASecond
       Sample.blank).2
  = [0.1%float; 0%float].
Proof. reflexivity. Qed.

(** For an element that reports the duration [Infinity] the frame
    processor stores the first frame only and requests no other. *)
Example processAutomaticFrames_endless :
  let processor :=
    FrameProcessor.processAutomaticFrames Sample.still (Some Sample.endless)
      true Sample.loading in
  Media.requested <$> processor.2 = Some [0%float]
  ∧ FrameProcessor.firstFrame processor.1 = Some (Sample.still Sample.endless)
  ∧ FrameProcessor.lastFrame processor.1 = None
  ∧ FrameProcessor.isProcessing processor.1 = false.
Proof. done. Qed.

(** *** Batch export *)

Section BatchExport.
Variable p : Project.t.
Implicit Types (selected : list string) (fs : gmap string (option string)).

(** The gallery items the selection finds, in the order of the selection. *)
Local Abbreviation found selected := (omap (App.findItem p) selected).

Lemma batch_entries_dom selected fs :
  dom (foldl (App.addEntry p) fs selected)
  = dom fs ∪ list_to_set (App.fileName <$> found selected).
Proof.
  revert fs. induction selected as [|id selected IH]; intros fs.
  { cbn. set_solver. }
  cbn [foldl]. rewrite IH. unfold App.addEntry. cbn [omap list_omap].
  destruct (App.findItem p id) as [item|]; [|done].
  rewrite dom_insert_L. cbn. set_solver.
Qed.

Lemma batch_entries_size_le selected fs :
  (size (foldl (App.addEntry p) fs selected) ≤ size fs + length selected)%nat.
Proof.
  revert fs. induction selected as [|id selected IH]; intros fs.
  { cbn. lia. }
  cbn [foldl length]. etrans; [apply IH|]. unfold App.addEntry.
  destruct (App.findItem p id) as [item|]; [|lia].
  rewrite map_size_insert. destruct (fs !! App.fileName item); cbn; lia.
Qed.

Lemma found_length selected :
  Forall (λ id, is_Some (App.findItem p id)) selected →
  length (found selected) = length selected.
Proof.
  induction 1 as [|id selected [item Hitem] _ IH]; [done|].
  cbn. rewrite Hitem. cbn. by rewrite IH.
Qed.

Lemma batch_entries_size_distinct selected :
  Forall (λ id, is_Some (App.findItem p id)) selected →
  NoDup (App.fileName <$> found selected) →
  size (foldl (App.addEntry p) ∅ selected) = length selected.
Proof.
  intros Hall Hnames.
  rewrite <- (size_dom (D := gset string)), batch_entries_dom.
  rewrite dom_empty_L, (left_id_L ∅ (∪)).
  rewrite size_list_to_set by done.
  by rewrite length_fmap, found_length.
Qed.

End BatchExport.

Lemma chars_append (s1 s2 : string) :
  JS.chars (s1 +:+ s2) = JS.chars s1 ++ JS.chars s2.
Proof.
  unfold JS.chars. induction s1 as [|c s1 IH]; [done|].
  cbn. by rewrite <- IH.
Qed.

Lemma chars_inj (s1 s2 : string) : JS.chars s1 = JS.chars s2 → s1 = s2.
Proof.
  unfold JS.chars. intros H.
  rewrite <- (String.string_of_list_ascii_of_string s1).
  rewrite <- (String.string_of_list_ascii_of_string s2). by rewrite H.
Qed.

Lemma slice_0_4_length (s : string) :
  (4 ≤ length (JS.chars s))%nat → length (JS.chars (JS.slice 0 4 s)) = 4%nat.
Proof.
  intros H. unfold JS.slice, JS.str, JS.chars in *.
  rewrite String.list_ascii_of_string_of_list_ascii.
  repeat case_decide; try lia.
  rewrite length_take, length_drop. lia.
Qed.

(** Two items whose ids (of at least four characters, as every UUID)
    differ within their first four characters get different entry
    names. *)
Lemma fileName_differs (i1 i2 : GalleryItem.t) :
  (4 ≤ length (JS.chars (GalleryItem.id i1)))%nat →
  (4 ≤ length (JS.chars (GalleryItem.id i2)))%nat →
  App.fileName i1 = App.fileName i2 →
  JS.slice 0 4 (GalleryItem.id i1) = JS.slice 0 4 (GalleryItem.id i2).
Proof.
  intros H1 H2 Heq. apply (f_equal JS.chars) in Heq.
  unfold App.fileName in Heq. rewrite !chars_append in Heq.
  rewrite !(assoc_L (++)) in Heq.
  apply app_inj_2 in Heq as [Heq _]; [|done].
  apply app_inj_2 in Heq as [_ Heq]; [by apply chars_inj|].
  by rewrite !slice_0_4_length.
Qed.

(** A sufficient condition for the exact count of C2: the selected items
    carry ids of at least four characters whose four-character prefixes
    are pairwise distinct. *)
Lemma batch_export_distinct_prefixes (p : Project.t) (selected : list string) :
  Forall (λ id, is_Some (App.findItem p id)) selected →
  Forall (λ i, (4 ≤ length (JS.chars (GalleryItem.id i)))%nat)
    (omap (App.findItem p) selected) →
  NoDup ((λ i, JS.slice 0 4 (GalleryItem.id i))
           <$> omap (App.findItem p) selected) →
  size (App.files (App.batchArchive p selected)) = length selected.
Proof.
  intros Hfound Hlen Hpre. cbn. apply batch_entries_size_distinct; [done|].
  eapply NoDup_fmap_via; [|exact Hpre].
  rewrite Forall_forall in Hlen. intros i1 i2 Hi1 Hi2.
  apply fileName_differs; by apply Hlen.
Qed.

(** C2, as the code has it: for a non-empty selection, with a project
    open and the encoder succeeding, the archive's entries are named by
    the derived file names of the selected items found in the gallery, so
    there are at most N of them for a selection of size N; there are
    exactly N when every selected id is an item of the gallery and the
    derived names (stem of [videoName], type, first four characters of the
    [id]) of the selected items are pairwise distinct. *)
Theorem batch_export_entries
  (st : App.State) (p : Project.t) (now : Z) :
  App.activeProject st = Some p →
  JS.StrSet.size (App.selectedGalleryIds st) ≠ 0%nat →
  ∃ d,
    (App.downloadBatchZip true now st).2 = Some d
    ∧ dom (App.files (App.zip d))
      =@{gset string}
        list_to_set
          (App.fileName <$> omap (App.findItem p) (App.selectedGalleryIds st))
    ∧ (size (App.files (App.zip d))
       ≤ JS.StrSet.size (App.selectedGalleryIds st))%nat
    ∧ (Forall (λ id, is_Some (App.findItem p id)) (App.selectedGalleryIds st) →
       NoDup
         (App.fileName <$> omap (App.findItem p) (App.selectedGalleryIds st)) →
       size (App.files (App.zip d))
       = JS.StrSet.size (App.selectedGalleryIds st)).
Proof.
  intros Hp Hsel. unfold App.downloadBatchZip. rewrite Hp.
  rewrite decide_False by done. eexists. split; [done|]. cbn.
  split_and!.
  - rewrite batch_entries_dom, dom_empty_L. by rewrite (left_id_L ∅ (∪)).
  - etrans; [apply batch_entries_size_le|]. rewrite map_size_empty.
    unfold JS.StrSet.size. lia.
  - apply batch_entries_size_distinct.
Qed.

(** C2 on sample data: two selected captures with different names. *)
Lemma batch_export_entries_witness :
  ∃ d,
    (App.downloadBatchZip true 9000 Sample.editingC).2 = Some d
    ∧ dom (App.files (App.zip d))
      =@{gset string} {[ "clip_manual_abcd.png"; "intro_final_ef01.png" ]}
    ∧ size (App.files (App.zip d)) = 2%nat.
Proof.
  destruct (batch_export_entries Sample.editingC Sample.projectC 9000)
    as (d & Hd & Hdom & _ & Hsize); [reflexivity|discriminate|].
  exists d. split_and!; [exact Hd| |].
  - rewrite Hdom. cbn. set_solver.
  - rewrite Hsize; [reflexivity| |].
    + repeat (constructor; [by eexists|]). constructor.
    + cbn. apply NoDup_cons. split; [|apply NoDup_singleton].
      intros Hin%list_elem_of_singleton. discriminate Hin.
Defined.

(** C2 as stated fails: the two captures selected in project A have the
    same clip name and type and ids that agree on their first four
    characters, so both are written to the one entry
    [clip_manual_abcd.png]. *)
Lemma batch_export_prefix_collision :
  Forall (λ id, is_Some (App.findItem Sample.projectA id))
    (App.selectedGalleryIds Sample.editingA)
  ∧ GalleryItem.id Sample.item1 ≠ GalleryItem.id Sample.item2
  ∧ JS.StrSet.size (App.selectedGalleryIds Sample.editingA) = 2%nat
  ∧ ∃ d,
      (App.downloadBatchZip true 9000 Sample.editingA).2 = Some d
      ∧ App.files (App.zip d) = {[ "clip_manual_abcd.png" := Some "AAAA" ]}
      ∧ size (App.files (App.zip d))
        ≠ JS.StrSet.size (App.selectedGalleryIds Sample.editingA).
Proof.
  split_and!.
  - repeat (constructor; [by eexists|]). constructor.
  - discriminate.
  - reflexivity.
  - eexists. split; [reflexivity|]. split.
    + vm_compute. reflexivity.
    + vm_compute. discriminate.
Qed.

(** *** Modification stamps *)

Lemma updateActiveProjectVideos_lastModified u now st p :
  JS.falsy (App.activeProjectId st) = false →
  App.activeProject st = Some p →
  Project.lastModified
    <$> App.activeProject (App.updateActiveProjectVideos u now st)
  = Some now.
Proof.
  intros Hf Hp. by rewrite updateActiveProjectVideos_active, Hp.
Qed.

Lemma addToGallery_active src type videoName uuid t_created t_modified st :
  JS.falsy (App.activeProjectId st) = false →
  App.activeProject
    (App.addToGallery src type videoName uuid t_created t_modified st)
  = (λ proj,
       Project.with_gallery_at
         (GalleryItem.mk uuid src type videoName t_created
            :: Project.galleryItems proj)
         t_modified proj)
    <$> App.activeProject st.
Proof.
  intros Hf. unfold App.addToGallery. rewrite Hf.
  unfold App.activeProject. cbn. by apply onActive_find.
Qed.

Lemma addToGallery_lastModified src type videoName uuid t_created t_modified
    st p :
  JS.falsy (App.activeProjectId st) = false →
  App.activeProject st = Some p →
  Project.lastModified
    <$> App.activeProject
          (App.addToGallery src type videoName uuid t_created t_modified st)
  = Some t_modified.
Proof. intros Hf Hp. by rewrite addToGallery_active, Hp. Qed.

(** Switching the view, opening and leaving a project do not touch the
    store. *)
Lemma view_switches_keep_projects v projectId st :
  App.projects (App.switchView v st) = App.projects st
  ∧ App.projects (App.setCurrentView v st) = App.projects st
  ∧ App.projects (App.openProject projectId st) = App.projects st
  ∧ App.projects (App.exitProject st) = App.projects st.
Proof.
  split_and!; try done. unfold App.switchView. by destruct (JS.falsy _).
Qed.

Lemma removeFromGallery_stamps id st :
  Project.lastModified <$> App.projects (App.removeFromGallery id st)
  = Project.lastModified <$> App.projects st.
Proof.
  unfold App.removeFromGallery.
  destruct (JS.falsy (App.activeProjectId st)); [done|]. cbn.
  rewrite <- list_fmap_compose. apply list_fmap_ext. intros _ proj _. cbn.
  by destruct (negb _).
Qed.

Lemma deleteSelected_stamps confirmed st :
  Project.lastModified <$> App.projects (App.deleteSelected confirmed st)
  = Project.lastModified <$> App.projects st.
Proof.
  unfold App.deleteSelected.
  destruct (App.activeProject st); [|done]. destruct confirmed; [|done]. cbn.
  rewrite <- list_fmap_compose. apply list_fmap_ext. intros _ proj _. cbn.
  by destruct (negb _).
Qed.

(** C1, where the code departs from it: removing a capture and deleting
    the selected captures change [galleryItems] and leave [lastModified]
    of every project as it was.  In project A (last modified at 3000)
    removing one capture, or deleting both selected ones, empties part of
    the gallery and the stamp stays 3000. *)
Theorem gallery_removals_leave_lastModified :
  (∀ id st,
     Project.lastModified <$> App.projects (App.removeFromGallery id st)
     = Project.lastModified <$> App.projects st)
  ∧ (∀ confirmed st,
       Project.lastModified <$> App.projects (App.deleteSelected confirmed st)
       = Project.lastModified <$> App.projects st)
  ∧ App.activeProject
      (App.removeFromGallery (GalleryItem.id Sample.item1) Sample.editingA)
    = Some (Project.mk (Project.id Sample.projectA) "Demo A" ratio_16_9
              1000 3000 [Sample.video1] [Sample.item2])
  ∧ App.activeProject (App.deleteSelected true Sample.editingA)
    = Some (Project.mk (Project.id Sample.projectA) "Demo A" ratio_16_9
              1000 3000 [Sample.video1] [])
  ∧ Project.lastModified <$> App.activeProject Sample.editingA = Some 3000.
Proof.
  split_and!;
    [apply removeFromGallery_stamps|apply deleteSelected_stamps|done..].
Qed.

(** *** Removing a video *)

Lemma onDelete_active videoId now st :
  JS.falsy (App.activeProjectId st) = false →
  App.activeProject (TimelineEditor.onDelete videoId now st)
  = (λ proj,
       Project.with_videos
         (filter (λ i, VideoItem.id i ≠ videoId) (Project.videos proj))
         now proj)
    <$> App.activeProject st.
Proof. apply updateActiveProjectVideos_active. Qed.

(** The item with that [id] leaves [videos]; without such an item the
    list stays as it is. *)
Lemma onDelete_removes videoId now st p :
  JS.falsy (App.activeProjectId st) = false →
  App.activeProject st = Some p →
  ∃ p',
    App.activeProject (TimelineEditor.onDelete videoId now st) = Some p'
    ∧ (videoId ∉ VideoItem.id <$> Project.videos p')
    ∧ (videoId ∉ (VideoItem.id <$> Project.videos p) →
       Project.videos p' = Project.videos p).
Proof.
  intros Hf Hp. rewrite onDelete_active, Hp by done. eexists.
  split; [done|]. cbn. split.
  - rewrite list_elem_of_fmap. intros (v & -> & Hin).
    apply list_elem_of_filter in Hin as [Hne _]. by apply Hne.
  - intros Hnot. apply filter_all, Forall_forall. intros v Hv Heq.
    apply Hnot, list_elem_of_fmap. by exists v.
Qed.

Lemma onDelete_objectURLs videoId now st :
  App.objectURLs (TimelineEditor.onDelete videoId now st) = App.objectURLs st.
Proof.
  unfold TimelineEditor.onDelete, App.updateActiveProjectVideos.
  by destruct (JS.falsy _).
Qed.

Lemma revokeVideos_revokes p (v : VideoItem.t) urls :
  v ∈ Project.videos p →
  VideoItem.url v ∉ App.revokeVideos (Some p) urls.
Proof.
  unfold App.revokeVideos.
  assert (∀ vs urls,
            foldl (λ u v, App.revokeObjectURL (VideoItem.url v) u) urls vs
            = urls ∖ list_to_set (VideoItem.url <$> vs)) as Hfold.
  { induction vs as [|w vs IH]; intros u; cbn; [set_solver|].
    rewrite IH. unfold App.revokeObjectURL. set_solver. }
  intros Hin. rewrite Hfold. set_solver.
Qed.

(** Deleting a project releases the object URL of each of its videos. *)
Lemma deleteProject_revokes st p (v : VideoItem.t) :
  List.find (λ q, bool_decide (Project.id q = Project.id p)) (App.projects st)
  = Some p →
  v ∈ Project.videos p →
  VideoItem.url v ∉ App.objectURLs (App.deleteProject true (Project.id p) st).
Proof.
  intros Hfind Hin. unfold App.deleteProject. rewrite Hfind.
  case_decide; cbn; by apply revokeVideos_revokes.
Qed.

(** C4, where the code departs from it: [onDelete] takes the item out of
    [videos] and releases nothing, whatever the state; in project A the
    only video is removed and its object URL stays live, whereas deleting
    the project releases it. *)
Theorem onDelete_does_not_release_the_url :
  (∀ videoId now st,
     App.objectURLs (TimelineEditor.onDelete videoId now st)
     = App.objectURLs st)
  ∧ UI.shownVideos Sample.editingA = [Sample.video1]
  ∧ UI.shownVideos
      (TimelineEditor.onDelete (VideoItem.id Sample.video1) 5000
         Sample.editingA) = []
  ∧ VideoItem.url Sample.video1
    ∈ App.objectURLs
        (TimelineEditor.onDelete (VideoItem.id Sample.video1) 5000
           Sample.editingA)
  ∧ VideoItem.url Sample.video1
    ∉ App.objectURLs
        (App.deleteProject true (Project.id Sample.projectA) Sample.editingA).
Proof.
  split_and!; [apply onDelete_objectURLs|done|done| |].
  - rewrite onDelete_objectURLs. cbn. by apply elem_of_singleton.
  - apply (deleteProject_revokes Sample.editingA Sample.projectA); [done|].
    apply list_elem_of_here.
Qed.

(** *** Stamps under a clock that never goes back *)

Section Stamps.
Variable a : option string.
Variable G : Project.t → Project.t.
Variables t t' : Z.
Hypothesis Hle : t ≤ t'.
Hypothesis G_stamps :
  ∀ p, Project.createdAt p ≤ Project.lastModified p ≤ t →
       Project.createdAt (G p) ≤ Project.lastModified (G p) ≤ t'.

Lemma onActive_stamps (l : list Project.t) :
  Forall (λ p, Project.createdAt p ≤ Project.lastModified p ≤ t) l →
  Forall (λ p, Project.createdAt p ≤ Project.lastModified p ≤ t')
    ((λ proj, if negb (App.isActive a proj) then proj else G proj) <$> l).
Proof.
  intros H. apply Forall_fmap. eapply Forall_impl; [exact H|].
  intros p Hp. cbn in Hp |- *. destruct (negb _); [lia|by apply G_stamps].
Qed.

End Stamps.

Lemma stampedBy_later t t' st st' :
  t ≤ t' → App.projects st' = App.projects st →
  stampedBy t st → stampedBy t' st'.
Proof.
  unfold stampedBy. intros Hle -> H. eapply Forall_impl; [exact H|].
  intros p Hp. cbn in Hp |- *. lia.
Qed.

Local Ltac keeps_store t st :=
  apply (stampedBy_later t _ st); [lia|done|done].

Lemma updateActiveProjectVideos_stamps u now t t' st :
  t ≤ now → now ≤ t' →
  stampedBy t st → stampedBy t' (App.updateActiveProjectVideos u now st).
Proof.
  intros H1 H2 Hst. unfold App.updateActiveProjectVideos.
  destruct (JS.falsy _); [keeps_store t st|].
  apply (onActive_stamps _ _ t); [lia| |exact Hst].
  intros p. cbn. lia.
Qed.

Lemma handleFiles_stamps files uuids urls now t t' st :
  t ≤ now → now ≤ t' →
  stampedBy t st → stampedBy t' (App.handleFiles files uuids urls now st).
Proof.
  intros H1 H2 Hst. unfold App.handleFiles.
  destruct files as [files|]; [|keeps_store t st].
  destruct (JS.falsy _) eqn:Hf; [keeps_store t st|].
  unfold App.updateActiveProjectVideos. cbn. rewrite Hf.
  apply (onActive_stamps _ _ t); [lia| |exact Hst].
  intros p. cbn. lia.
Qed.

Lemma handle_stamps e st t t' :
  UI.inOrder t (UI.readings e ++ [t']) →
  stampedBy t st → stampedBy t' (UI.handle e st).
Proof.
  destruct e; cbn [UI.handle UI.readings app UI.inOrder]; intros Hord Hst;
    try keeps_store t st.
  - (* ConfirmCreateProject *)
    unfold App.confirmCreateProject.
    case_decide; [keeps_store t st|].
    apply Forall_cons. split; [cbn; lia|].
    eapply Forall_impl; [exact Hst|]. intros p. cbn. lia.
  - (* ClickDeleteProject *)
    destruct (App.projects st !! card) as [project|];
      [|keeps_store t st].
    unfold App.deleteProject.
    destruct confirmed; [|keeps_store t st].
    assert (stampedBy t'
              (App.setProjects
                 (filter (λ p, Project.id p ≠ Project.id project))
                 (App.setObjectURLs
                    (App.revokeVideos
                       (List.find
                          (λ p, bool_decide (Project.id p = Project.id project))
                          (App.projects st)))
                    st))) as H.
    { apply Forall_filter_keeps. eapply Forall_impl; [exact Hst|].
      intros p Hp. cbn in Hp |- *. lia. }
    by case_decide.
  - (* ClickProjectCard *)
    destruct (App.projects st !! card);
      keeps_store t st.
  - (* SwitchView *)
    unfold App.switchView.
    destruct (JS.falsy _); keeps_store t st.
  - (* MoveVideo *)
    case_decide; [|keeps_store t st].
    destruct (JS.defined _); [|keeps_store t st].
    apply (updateActiveProjectVideos_stamps _ _ t); [lia..|done].
  - (* DeleteVideo *)
    destruct (UI.shownVideos st !! index);
      [|keeps_store t st].
    apply (updateActiveProjectVideos_stamps _ _ t); [lia..|done].
  - apply (updateActiveProjectVideos_stamps _ _ t); [lia..|done].
  - apply (updateActiveProjectVideos_stamps _ _ t); [lia..|done].
  - apply (handleFiles_stamps _ _ _ _ t); [lia..|done].
  - apply (handleFiles_stamps _ _ _ _ t); [lia..|done].
  - (* AddToGallery *)
    unfold App.addToGallery.
    destruct (JS.falsy _); [keeps_store t st|].
    apply (onActive_stamps _ _ t); [lia| |exact Hst].
    intros p. cbn. lia.
  - (* RemoveFromGallery *)
    unfold App.removeFromGallery.
    destruct (JS.falsy _); [keeps_store t st|].
    apply (onActive_stamps _ _ t); [lia| |exact Hst].
    intros p. cbn. lia.
  - (* ToggleSelectAll *)
    unfold App.toggleSelectAll.
    destruct (App.activeProject st);
      [case_decide|]; keeps_store t st.
  - (* DeleteSelected *)
    unfold App.deleteSelected.
    destruct (App.activeProject st);
      [|keeps_store t st].
    destruct confirmed; [|keeps_store t st].
    apply (onActive_stamps _ _ t); [lia| |exact Hst].
    intros p. cbn. lia.
  - (* DownloadBatchZip *)
    unfold App.downloadBatchZip.
    destruct (App.activeProject st);
      [|keeps_store t st].
    case_decide; [keeps_store t st|].
    destruct zip_ok; keeps_store t st.
Qed.

(** While the clock never goes back, [lastModified ≥ createdAt] holds for
    every project of the store, and no stamp is ahead of the clock. *)
Lemma ticking_stamps t st : UI.ticking t st → stampedBy t st.
Proof.
  induction 1 as [t|e st t t' _ IH Hord]; [by constructor|].
  by apply (handle_stamps e st t).
Qed.

(** A change of the videos or a capture added to the gallery at a
    reading later than the project's stamp moves the stamp forward. *)
Lemma stamp_moves_forward u src type videoName uuid t_created now st p :
  JS.falsy (App.activeProjectId st) = false →
  App.activeProject st = Some p →
  Project.lastModified p < now →
  (∃ p', App.activeProject (App.updateActiveProjectVideos u now st) = Some p'
         ∧ Project.lastModified p < Project.lastModified p')
  ∧ (∃ p', App.activeProject
             (App.addToGallery src type videoName uuid t_created now st)
           = Some p'
           ∧ Project.lastModified p < Project.lastModified p').
Proof.
  intros Hf Hp Hlt. split; eexists.
  - by rewrite updateActiveProjectVideos_active, Hp.
  - by rewrite addToGallery_active, Hp.
Qed.

(** The actions that neither create or delete a project nor change the
    videos or the gallery of one leave the store as it is. *)
Lemma other_actions_keep_projects e st :
  UI.mutatesProject e = false →
  (∀ uuid t_created t_modified,
     e ≠ UI.ConfirmCreateProject uuid t_created t_modified) →
  (∀ card confirmed, e ≠ UI.ClickDeleteProject card confirmed) →
  App.projects (UI.handle e st) = App.projects st.
Proof.
  intros Hm Hc Hd. destruct e; try discriminate Hm; cbn [UI.handle]; try done.
  - by destruct (Hc uuid t_created t_modified).
  - by destruct (Hd card confirmed).
  - by destruct (App.projects st !! card).
  - unfold App.switchView. by destruct (JS.falsy _).
  - unfold App.toggleSelectAll. destruct (App.activeProject st); [|done].
    by case_decide.
  - unfold App.downloadBatchZip. destruct (App.activeProject st); [|done].
    case_decide; [done|]. by destruct zip_ok.
Qed.

(** *** The selection is a set *)

Lemma handle_selection_wf e st :
  JS.StrSet.wf (App.selectedGalleryIds st) →
  JS.StrSet.wf (App.selectedGalleryIds (UI.handle e st)).
Proof.
  intros Hwf. destruct e; cbn [UI.handle]; try done.
  - unfold App.confirmCreateProject. by case_decide.
  - destruct (App.projects st !! card); [|done].
    unfold App.deleteProject. destruct confirmed; [|done]. by case_decide.
  - destruct (App.projects st !! card); [apply NoDup_nil_2|done].
  - unfold App.switchView. by destruct (JS.falsy _).
  - case_decide; [|done]. destruct (JS.defined _); [|done].
    unfold App.updateActiveProjectVideos. by destruct (JS.falsy _).
  - destruct (UI.shownVideos st !! index); [|done].
    unfold TimelineEditor.onDelete, App.updateActiveProjectVideos.
    by destruct (JS.falsy _).
  - unfold App.handleUpdateVideo, App.updateActiveProjectVideos.
    by destruct (JS.falsy _).
  - unfold App.handleRenameVideo, App.handleUpdateVideo,
      App.updateActiveProjectVideos.
    by destruct (JS.falsy _).
  - unfold App.handleFiles. destruct files; [|done].
    destruct (JS.falsy _) eqn:Hf; [done|].
    unfold App.updateActiveProjectVideos. cbn. by rewrite Hf.
  - unfold TimelineEditor.onInsertVideo, App.handleFiles.
    destruct (JS.falsy _) eqn:Hf; [done|].
    unfold App.updateActiveProjectVideos. cbn. by rewrite Hf.
  - unfold App.addToGallery. by destruct (JS.falsy _).
  - unfold App.removeFromGallery. destruct (JS.falsy _); [done|].
    by apply StrSet_delete_wf.
  - unfold App.toggleSelection. cbn. destruct (JS.StrSet.has _ _).
    + by apply StrSet_delete_wf.
    + by apply StrSet_add_wf.
  - unfold App.toggleSelectAll. destruct (App.activeProject st); [|done].
    case_decide; [apply NoDup_nil_2|apply StrSet_of_list_wf].
  - unfold App.deleteSelected. destruct (App.activeProject st); [|done].
    destruct confirmed; [apply NoDup_nil_2|done].
  - unfold App.downloadBatchZip. destruct (App.activeProject st); [|done].
    case_decide; [done|]. by destruct zip_ok.
Qed.

(** In every state the interface reaches, the selection holds no id
    twice: its size is the number of selected ids. *)
Lemma reachable_selection_wf st :
  UI.reachable st → JS.StrSet.wf (App.selectedGalleryIds st).
Proof.
  induction 1 as [|e st _ IH]; [apply NoDup_nil_2|].
  by apply handle_selection_wf.
Qed.

(** ** Further properties of the handlers *)

(** *** The selection set *)

Lemma StrSet_delete_size id (s : list string) :
  NoDup s → id ∈ s →
  S (JS.StrSet.size (JS.StrSet.delete id s)) = JS.StrSet.size s.
Proof.
  unfold JS.StrSet.size, JS.StrSet.delete.
  induction 1 as [|x s Hx Hs IH]; intros Hin; [by apply elem_of_nil in Hin|].
  rewrite filter_cons. destruct (decide (x ≠ id)) as [Hne|Heq].
  - cbn. f_equal. apply IH. apply elem_of_cons in Hin as [->|Hin]; done.
  - apply dec_stable in Heq as ->. cbn. f_equal.
    rewrite filter_all; [done|]. apply Forall_forall. by intros y Hy ->.
Qed.

Lemma StrSet_has_delete_other id other (s : list string) :
  other ≠ id →
  JS.StrSet.has other (JS.StrSet.delete id s) = JS.StrSet.has other s.
Proof.
  intros Hne. unfold JS.StrSet.has, JS.StrSet.delete.
  apply bool_decide_ext. rewrite list_elem_of_filter. tauto.
Qed.

Lemma elem_of_StrSet_add id other (s : list string) :
  other ∈ JS.StrSet.add id s ↔ other = id ∨ other ∈ s.
Proof.
  unfold JS.StrSet.add, JS.StrSet.has. case_bool_decide as Hin.
  - split; [by right|]. by intros [->|H].
  - rewrite elem_of_app, list_elem_of_singleton. tauto.
Qed.

Lemma StrSet_has_add id other (s : list string) :
  JS.StrSet.has other (JS.StrSet.add id s)
  = if decide (other = id) then true else JS.StrSet.has other s.
Proof.
  unfold JS.StrSet.has. destruct (decide (other = id)) as [->|Hne].
  - apply bool_decide_eq_true_2, elem_of_StrSet_add. by left.
  - apply bool_decide_ext. rewrite elem_of_StrSet_add. tauto.
Qed.

Lemma StrSet_of_list_NoDup (l : list string) :
  NoDup l → JS.StrSet.of_list l = l.
Proof.
  unfold JS.StrSet.of_list.
  assert (∀ s, NoDup (s ++ l) →
               foldl (λ s x, JS.StrSet.add x s) s l = s ++ l) as H.
  { induction l as [|x l IH]; intros s Hnd; cbn.
    - by rewrite app_nil_r.
    - unfold JS.StrSet.add at 2. unfold JS.StrSet.has.
      apply NoDup_app in Hnd as Hparts. destruct Hparts as (_ & Hdisj & _).
      rewrite bool_decide_eq_false_2.
      + rewrite IH; [by rewrite <- app_assoc|]. by rewrite <- app_assoc.
      + intros Hin. apply (Hdisj x Hin). apply list_elem_of_here. }
  intros Hl. by apply (H []).
Qed.

(** X1: toggling an id flips its membership in the selection, leaves the
    membership of every other id alone, changes the size by exactly one,
    and does not touch the store. *)
Theorem toggleSelection_flips_one_id (st : App.State) (id : string) :
  JS.StrSet.wf (App.selectedGalleryIds st) →
  JS.StrSet.has id (App.selectedGalleryIds (App.toggleSelection id st))
  = negb (JS.StrSet.has id (App.selectedGalleryIds st))
  ∧ (∀ other, other ≠ id →
       JS.StrSet.has other (App.selectedGalleryIds (App.toggleSelection id st))
       = JS.StrSet.has other (App.selectedGalleryIds st))
  ∧ JS.StrSet.wf (App.selectedGalleryIds (App.toggleSelection id st))
  ∧ (if JS.StrSet.has id (App.selectedGalleryIds st)
     then S (JS.StrSet.size
               (App.selectedGalleryIds (App.toggleSelection id st)))
          = JS.StrSet.size (App.selectedGalleryIds st)
     else JS.StrSet.size (App.selectedGalleryIds (App.toggleSelection id st))
          = S (JS.StrSet.size (App.selectedGalleryIds st)))
  ∧ App.projects (App.toggleSelection id st) = App.projects st.
Proof.
  intros Hwf. unfold App.toggleSelection. cbn.
  destruct (JS.StrSet.has id (App.selectedGalleryIds st)) eqn:Hhas.
  - split_and!; [apply StrSet_has_delete| |by apply StrSet_delete_wf| |done].
    + intros other Hne. by apply StrSet_has_delete_other.
    + apply StrSet_delete_size; [done|].
      unfold JS.StrSet.has in Hhas. by apply bool_decide_eq_true in Hhas.
  - split_and!; [| |by apply StrSet_add_wf| |done].
    + rewrite StrSet_has_add. by rewrite decide_True.
    + intros other Hne. rewrite StrSet_has_add. by rewrite decide_False.
    + unfold JS.StrSet.add. rewrite Hhas. unfold JS.StrSet.size.
      rewrite length_app. cbn. lia.
Qed.

Lemma toggleSelection_flips_one_id_witness :
  App.selectedGalleryIds
    (App.toggleSelection (GalleryItem.id Sample.item2) Sample.editingA)
  = [GalleryItem.id Sample.item1]
  ∧ JS.StrSet.has (GalleryItem.id Sample.item2)
      (App.selectedGalleryIds
         (App.toggleSelection (GalleryItem.id Sample.item2) Sample.editingA))
    = false.
Proof.
  split; [reflexivity|].
  destruct (toggleSelection_flips_one_id Sample.editingA
              (GalleryItem.id Sample.item2)) as [H _].
  - apply NoDup_cons. split; [|apply NoDup_singleton].
    intros Hin%list_elem_of_singleton. discriminate Hin.
  - exact H.
Defined.

Lemma selection_keeps_active f st :
  App.activeProject (App.setSelectedGalleryIds f st) = App.activeProject st.
Proof. done. Qed.

(** X2: with a project open whose captures carry distinct ids, "select
    all" compares sizes only: when the selection is as large as the
    gallery it is emptied (whatever ids it holds), otherwise it becomes the
    ids of the gallery in gallery order, after which every capture is
    selected and, for a non-empty gallery, [isAllSelected] holds. *)
Theorem toggleSelectAll_selects_all_or_clears
  (st : App.State) (p : Project.t) :
  App.activeProject st = Some p →
  NoDup (GalleryItem.id <$> Project.galleryItems p) →
  (JS.StrSet.size (App.selectedGalleryIds st)
   = length (Project.galleryItems p) →
   App.selectedGalleryIds (App.toggleSelectAll st) = [])
  ∧ (JS.StrSet.size (App.selectedGalleryIds st)
     ≠ length (Project.galleryItems p) →
     App.selectedGalleryIds (App.toggleSelectAll st)
     = GalleryItem.id <$> Project.galleryItems p
     ∧ (∀ item, item ∈ Project.galleryItems p →
          JS.StrSet.has (GalleryItem.id item)
            (App.selectedGalleryIds (App.toggleSelectAll st)) = true)
     ∧ App.isAllSelected (App.toggleSelectAll st)
       = bool_decide (0 < length (Project.galleryItems p))%nat)
  ∧ App.projects (App.toggleSelectAll st) = App.projects st.
Proof.
  intros Hp Hnd. unfold App.toggleSelectAll. rewrite Hp.
  split_and!.
  - intros Hsize. by rewrite decide_True.
  - intros Hsize. rewrite decide_False by done. cbn.
    rewrite StrSet_of_list_NoDup by done. split_and!; [done| |].
    + intros item Hin. unfold JS.StrSet.has. apply bool_decide_eq_true_2.
      apply list_elem_of_fmap. by exists item.
    + unfold App.isAllSelected. rewrite selection_keeps_active, Hp. cbn.
      unfold JS.StrSet.size.
      rewrite length_fmap, (bool_decide_eq_true_2 (_ = _)) by done.
      apply andb_true_r.
  - by case_decide.
Qed.

Lemma toggleSelectAll_selects_all_or_clears_witness :
  App.selectedGalleryIds (App.toggleSelectAll Cases.browsingC)
  = [GalleryItem.id Sample.item3; GalleryItem.id Sample.item1]
  ∧ App.isAllSelected (App.toggleSelectAll Cases.browsingC) = true
  ∧ App.selectedGalleryIds (App.toggleSelectAll Sample.editingC) = [].
Proof.
  destruct (toggleSelectAll_selects_all_or_clears Cases.browsingC
              Sample.projectC) as (_ & Hall & _); [reflexivity| |].
  { apply NoDup_cons. split; [|apply NoDup_singleton].
    intros Hin%list_elem_of_singleton. discriminate Hin. }
  destruct Hall as (Hsel & _ & Hflag); [discriminate|].
  split_and!; [exact Hsel|exact Hflag|reflexivity].
Defined.

(** *** Deleting the selected captures *)

Lemma deleteSelected_active st :
  App.activeProject (App.deleteSelected true st)
  = (λ proj,
       Project.with_gallery
         (filter
            (λ item,
               JS.StrSet.has (GalleryItem.id item) (App.selectedGalleryIds st)
               = false)
            (Project.galleryItems proj))
         proj)
    <$> App.activeProject st.
Proof.
  unfold App.deleteSelected.
  destruct (App.activeProject st) as [p|] eqn:Hp; [|by rewrite Hp].
  unfold App.activeProject in *. cbn.
  rewrite onActive_find by done. by rewrite Hp.
Qed.

(** X3: with a project open, deleting the selection (confirmed) keeps
    exactly the captures whose id is not selected, in their order, leaves
    the videos and the modification stamp alone, empties the selection, and
    a batch export right after offers nothing; declined, it changes
    nothing. *)
Theorem deleteSelected_removes_exactly_the_selection
  (st : App.State) (p : Project.t) (zip_ok : bool) (now : Z) :
  App.activeProject st = Some p →
  ∃ p',
    App.activeProject (App.deleteSelected true st) = Some p'
    ∧ Project.galleryItems p'
      = filter (λ item, GalleryItem.id item ∉ App.selectedGalleryIds st)
          (Project.galleryItems p)
    ∧ Project.videos p' = Project.videos p
    ∧ Project.lastModified p' = Project.lastModified p
    ∧ App.selectedGalleryIds (App.deleteSelected true st) = []
    ∧ (App.downloadBatchZip zip_ok now (App.deleteSelected true st)).2 = None
    ∧ App.deleteSelected false st = st.
Proof.
  intros Hp. eexists. rewrite deleteSelected_active, Hp. cbn.
  split_and!; [done| |done|done| | |].
  - apply list_filter_iff. intros item. unfold JS.StrSet.has.
    rewrite bool_decide_eq_false. done.
  - unfold App.deleteSelected. by rewrite Hp.
  - unfold App.downloadBatchZip. rewrite deleteSelected_active, Hp. cbn.
    unfold App.deleteSelected. by rewrite Hp.
  - unfold App.deleteSelected. by rewrite Hp.
Qed.

Lemma deleteSelected_removes_exactly_the_selection_witness :
  ∃ p',
    App.activeProject (App.deleteSelected true Sample.editingC) = Some p'
    ∧ Project.galleryItems p' = []
    ∧ App.selectedGalleryIds (App.deleteSelected true Sample.editingC) = [].
Proof.
  destruct (deleteSelected_removes_exactly_the_selection Sample.editingC
              Sample.projectC true 0) as (p' & Hp' & Hgal & _ & _ & Hsel & _);
    [reflexivity|].
  exists p'. split_and!; [exact Hp'| |exact Hsel].
  rewrite Hgal. reflexivity.
Defined.

(** *** Saving a capture *)

(** X4: with a project open, [addToGallery] puts the new capture, built
    from its arguments, in front of the existing ones; when its id is not
    yet in the gallery, removing it again gives back the gallery as it
    was, with the videos untouched. *)
Theorem addToGallery_prepends_and_remove_undoes
  (st : App.State) (p : Project.t) (src : string) (type : GalleryType)
  (videoName uuid : string) (t_created t_modified : Z) :
  JS.falsy (App.activeProjectId st) = false →
  App.activeProject st = Some p →
  uuid ∉ GalleryItem.id <$> Project.galleryItems p →
  (∃ p1,
     App.activeProject
       (App.addToGallery src type videoName uuid t_created t_modified st)
     = Some p1
     ∧ Project.galleryItems p1
       = GalleryItem.mk uuid src type videoName t_created
         :: Project.galleryItems p
     ∧ Project.videos p1 = Project.videos p)
  ∧ (∃ p2,
       App.activeProject
         (App.removeFromGallery uuid
            (App.addToGallery src type videoName uuid t_created t_modified st))
       = Some p2
       ∧ Project.galleryItems p2 = Project.galleryItems p
       ∧ Project.videos p2 = Project.videos p).
Proof.
  intros Hf Hp Hfresh. split; eexists.
  - rewrite addToGallery_active, Hp by done. done.
  - rewrite removeFromGallery_active
      by (by rewrite (proj1 (addToGallery_ids _ _ _ _ _ _ _))).
    rewrite addToGallery_active, Hp by done. cbn.
    split_and!; [done| |done].
    rewrite decide_False by (by intros H; apply H). cbn.
    apply filter_all, Forall_forall. intros item Hin Heq.
    apply Hfresh, list_elem_of_fmap. by exists item.
Qed.

Lemma addToGallery_prepends_and_remove_undoes_witness :
  ∃ p2,
    App.activeProject
      (App.removeFromGallery (GalleryItem.id Cases.item4)
         (App.addToGallery "data:image/png;base64,DDDD" inicio "intro.webm"
            (GalleryItem.id Cases.item4) 3600 3600 Cases.browsingC))
    = Some p2
    ∧ Project.galleryItems p2 = [Sample.item3; Sample.item1].
Proof.
  destruct (addToGallery_prepends_and_remove_undoes Cases.browsingC
              Sample.projectC "data:image/png;base64,DDDD" inicio "intro.webm"
              (GalleryItem.id Cases.item4) 3600 3600)
    as (_ & p2 & Hp2 & Hgal & _); [reflexivity|reflexivity| |].
  { cbn. rewrite !elem_of_cons, elem_of_nil. intros [H|[H|[]]]; discriminate H. }
  exists p2. split; [exact Hp2|]. rewrite Hgal. reflexivity.
Defined.

(** *** Renaming a video *)

Lemma handleRenameVideo_active videoId newName now st :
  JS.falsy (App.activeProjectId st) = false →
  App.activeProject (App.handleRenameVideo videoId newName now st)
  = (λ proj,
       Project.with_videos
         ((λ v, if decide (VideoItem.id v = videoId)
                then App.spread v
                       (App.mkUpdates None None None (Some newName) None)
                else v)
            <$> Project.videos proj)
         now proj)
    <$> App.activeProject st.
Proof. apply updateActiveProjectVideos_active. Qed.

(** X5: with a project open, renaming changes the [name] of the videos
    whose [id] is the given one and nothing else: every video keeps its
    position, [id], file, URL and crop, the other videos keep their name,
    and the captures already in the gallery keep the name they were taken
    under. *)
Theorem handleRenameVideo_changes_only_the_name
  (st : App.State) (p : Project.t) (videoId newName : string) (now : Z) :
  JS.falsy (App.activeProjectId st) = false →
  App.activeProject st = Some p →
  ∃ p',
    App.activeProject (App.handleRenameVideo videoId newName now st) = Some p'
    ∧ (∀ (i : nat) v,
         Project.videos p !! i = Some v →
         Project.videos p' !! i
         = Some (VideoItem.mk (VideoItem.id v) (VideoItem.file v)
                   (VideoItem.url v)
                   (if decide (VideoItem.id v = videoId) then newName
                    else VideoItem.name v)
                   (VideoItem.crop v)))
    ∧ length (Project.videos p') = length (Project.videos p)
    ∧ Project.galleryItems p' = Project.galleryItems p
    ∧ App.objectURLs (App.handleRenameVideo videoId newName now st)
      = App.objectURLs st.
Proof.
  intros Hf Hp.
  exists (Project.with_videos
            ((λ v, if decide (VideoItem.id v = videoId)
                   then App.spread v
                          (App.mkUpdates None None None (Some newName) None)
                   else v)
               <$> Project.videos p)
            now p).
  rewrite handleRenameVideo_active, Hp by done.
  cbn [Project.videos Project.galleryItems Project.with_videos].
  split_and!; [done| |apply length_fmap|done|].
  - intros i v Hv. rewrite list_lookup_fmap, Hv. cbn. f_equal.
    destruct v. cbn. by case_decide.
  - unfold App.handleRenameVideo, App.handleUpdateVideo,
      App.updateActiveProjectVideos. by rewrite Hf.
Qed.

Lemma handleRenameVideo_changes_only_the_name_witness :
  ∃ p',
    App.activeProject
      (App.handleRenameVideo (VideoItem.id Sample.video2) "opening" 5000
         Cases.browsingC) = Some p'
    ∧ VideoItem.name <$> Project.videos p' = ["clip.mp4"; "opening"]
    ∧ GalleryItem.videoName <$> Project.galleryItems p'
      = ["intro.webm"; "clip.mp4"].
Proof.
  destruct (handleRenameVideo_changes_only_the_name Cases.browsingC
              Sample.projectC (VideoItem.id Sample.video2) "opening" 5000)
    as (p' & Hp' & Hvideos & Hlen & Hgal & _); [reflexivity|reflexivity|].
  exists p'. split_and!; [exact Hp'| |by rewrite Hgal].
  pose proof (Hvideos 0%nat Sample.video1 eq_refl) as H0.
  pose proof (Hvideos 1%nat Sample.video2 eq_refl) as H1.
  destruct (Project.videos p') as [|v0 [|v1 [|v2 vs]]]; try discriminate Hlen.
  cbn in H0, H1. injection H0 as ->. injection H1 as ->. reflexivity.
Defined.

(** *** The name guard of project creation *)

Lemma dropWhile_nil {A} (f : A → bool) (l : list A) :
  JS.dropWhile f l = [] ↔ Forall (λ x, f x = true) l.
Proof.
  induction l as [|x l IH]; cbn.
  - split; [constructor|done].
  - destruct (f x) eqn:Hx.
    + rewrite IH. split; [by constructor|]. by intros [_ H]%Forall_cons.
    + split; [done|]. intros [H _]%Forall_cons. congruence.
Qed.

Lemma dropWhile_head {A} (f : A → bool) (l : list A) x l' :
  JS.dropWhile f l = x :: l' → f x = false.
Proof.
  induction l as [|y l IH]; cbn; [done|].
  destruct (f y) eqn:Hy; [done|]. by intros [= <- _].
Qed.

Lemma str_nil (l : list ascii) : JS.str l = "" ↔ l = [].
Proof. destruct l; [done|]. split; discriminate. Qed.

(** [trim] gives the empty string exactly for the strings made of white
    space only. *)
Lemma trim_empty (s : string) :
  JS.trim s = "" ↔ Forall (λ c, JS.isWhiteSpace c = true) (JS.chars s).
Proof.
  unfold JS.trim. rewrite str_nil.
  destruct (JS.dropWhile JS.isWhiteSpace (JS.chars s)) as [|x l] eqn:Hdrop.
  - cbn. by rewrite <- dropWhile_nil.
  - apply dropWhile_head in Hdrop as Hx. split.
    + intros Hrev%(f_equal (@rev ascii)).
      rewrite List.rev_involutive in Hrev.
      change (rev []) with (@nil ascii) in Hrev. apply dropWhile_nil in Hrev.
      apply List.Forall_rev in Hrev. rewrite List.rev_involutive in Hrev.
      apply Forall_cons in Hrev as [Hws _]. congruence.
    + intros Hall%dropWhile_nil. congruence.
Qed.

(** X6: [confirmCreateProject] creates a project exactly when the typed
    name holds a character that is not white space: a name of white space
    only (or empty) leaves the whole state as it is, any other name adds
    one project carrying the name as typed (untrimmed); and the default
    name set by [handleCreateProjectClick] always passes. *)
Theorem confirmCreateProject_guard
  (st : App.State) (uuid : string) (t_created t_modified : Z) :
  (Forall (λ c, JS.isWhiteSpace c = true) (JS.chars (App.newProjectName st)) →
   App.confirmCreateProject uuid t_created t_modified st = st)
  ∧ (Exists (λ c, JS.isWhiteSpace c = false)
       (JS.chars (App.newProjectName st)) →
     App.projects (App.confirmCreateProject uuid t_created t_modified st)
     = Project.mk uuid (App.newProjectName st) (App.newProjectRatio st)
         t_created t_modified [] []
       :: App.projects st)
  ∧ length
      (App.projects
         (App.confirmCreateProject uuid t_created t_modified
            (App.handleCreateProjectClick st)))
    = S (length (App.projects st)).
Proof.
  split_and!.
  - intros Hall. apply confirmCreateProject_blank. by apply trim_empty.
  - intros Hex. unfold App.confirmCreateProject.
    rewrite decide_False; [done|]. rewrite trim_empty.
    intros Hall. apply Exists_exists in Hex as (c & Hc & Hws).
    rewrite Forall_forall in Hall. specialize (Hall c Hc). congruence.
  - unfold App.confirmCreateProject.
    rewrite decide_False; [done|]. rewrite trim_empty.
    intros [Hws _]%Forall_cons. discriminate Hws.
Qed.

(** *** Deleting a project *)

Lemma find_after_filter_out (projectId : string) (l : list Project.t) :
  List.find (λ p, bool_decide (Project.id p = projectId))
    (filter (λ p, Project.id p ≠ projectId) l) = None.
Proof.
  induction l as [|p l IH]; [done|]. rewrite filter_cons.
  case_decide as Hne; [|done]. cbn. by rewrite bool_decide_eq_false_2.
Qed.

(** X7: a confirmed [deleteProject] leaves no project with that [id] in
    the store and keeps every other project, in order; done twice it has
    the effect of once; declined, it changes nothing. *)
Theorem deleteProject_removes_and_is_idempotent
  (st : App.State) (projectId : string) :
  App.projects (App.deleteProject true projectId st)
  = filter (λ p, Project.id p ≠ projectId) (App.projects st)
  ∧ (projectId
     ∉ Project.id <$> App.projects (App.deleteProject true projectId st))
  ∧ App.deleteProject true projectId (App.deleteProject true projectId st)
    = App.deleteProject true projectId st
  ∧ App.deleteProject false projectId st = st.
Proof.
  assert (App.projects (App.deleteProject true projectId st)
          = filter (λ p, Project.id p ≠ projectId) (App.projects st)) as Hps.
  { unfold App.deleteProject. by case_decide. }
  split_and!; [done| | |done].
  - rewrite Hps, list_elem_of_fmap. intros (p & -> & Hin).
    apply list_elem_of_filter in Hin as [Hne _]. by apply Hne.
  - assert (filter (λ p, Project.id p ≠ projectId)
              (filter (λ p, Project.id p ≠ projectId) (App.projects st))
            = filter (λ p, Project.id p ≠ projectId) (App.projects st)) as Hff.
    { by apply list_filter_filter_l. }
    unfold App.deleteProject.
    destruct (decide (App.activeProjectId st = Some projectId)) as [Ha|Ha];
      cbn -[filter List.find]; rewrite find_after_filter_out;
      rewrite decide_False by done;
      unfold App.setProjects, App.setObjectURLs, App.setActiveProjectId;
      cbn -[filter List.find]; by rewrite Hff.
Qed.

(** *** Object URLs *)

Lemma createObjectURLs_fold (vs : list VideoItem.t) (urls : gset string) :
  foldl (λ u v, App.createObjectURL (VideoItem.url v) u) urls vs
  = urls ∪ list_to_set (VideoItem.url <$> vs).
Proof.
  revert urls. induction vs as [|v vs IH]; intros urls; cbn.
  - set_solver.
  - rewrite IH. unfold App.createObjectURL. set_solver.
Qed.

Lemma revokeObjectURLs_fold (vs : list VideoItem.t) (urls : gset string) :
  foldl (λ u v, App.revokeObjectURL (VideoItem.url v) u) urls vs
  = urls ∖ list_to_set (VideoItem.url <$> vs).
Proof.
  revert urls. induction vs as [|v vs IH]; intros urls; cbn.
  - set_solver.
  - rewrite IH. unfold App.revokeObjectURL. set_solver.
Qed.

(** X8: with a project open, an import makes live exactly the URLs minted
    for the accepted files, one per video file and none for the others;
    the URLs that were live stay live. *)
Theorem handleFiles_mints_one_url_per_video
  (st : App.State) (files : list File.t) (uuids urls : nat → string)
  (now : Z) :
  JS.falsy (App.activeProjectId st) = false →
  App.objectURLs (App.handleFiles (Some files) uuids urls now st)
  = App.objectURLs st
    ∪ list_to_set (VideoItem.url <$> App.newVideosOf files uuids urls)
  ∧ VideoItem.url <$> App.newVideosOf files uuids urls
    = urls <$> seq 0 (length (filter (λ f, App.isVideoFile f = true) files))
  ∧ App.objectURLs st
    ⊆ App.objectURLs (App.handleFiles (Some files) uuids urls now st).
Proof.
  intros Hf.
  assert (App.objectURLs (App.handleFiles (Some files) uuids urls now st)
          = App.objectURLs st
            ∪ list_to_set (VideoItem.url <$> App.newVideosOf files uuids urls))
    as Hurls.
  { unfold App.handleFiles. rewrite Hf.
    unfold App.updateActiveProjectVideos. cbn. rewrite Hf. cbn.
    apply createObjectURLs_fold. }
  split_and!; [done| |rewrite Hurls; set_solver].
  unfold App.newVideosOf. rewrite fmap_imap.
  rewrite (imap_ext _ (λ j _, urls j)) by done. apply imap_seq_0.
Qed.

Lemma handleFiles_mints_one_url_per_video_witness :
  App.objectURLs
    (App.handleFiles (Some Cases.threeFiles) Sample.uuids Sample.urls 5000
       Cases.browsingC)
  = {[ VideoItem.url Sample.video1; VideoItem.url Sample.video2;
       "blob:http://localhost/0"; "blob:http://localhost/1" ]}.
Proof.
  destruct (handleFiles_mints_one_url_per_video Cases.browsingC
              Cases.threeFiles Sample.uuids Sample.urls 5000)
    as (Hurls & _ & _); [reflexivity|].
  rewrite Hurls. vm_compute. reflexivity.
Defined.

(** X9: deleting a project that the store holds releases the object URL
    of each of its videos and no other URL; declined, no URL is
    released. *)
Theorem deleteProject_releases_its_urls (st : App.State) (p : Project.t) :
  List.find (λ q, bool_decide (Project.id q = Project.id p)) (App.projects st)
  = Some p →
  App.objectURLs (App.deleteProject true (Project.id p) st)
  = App.objectURLs st ∖ list_to_set (VideoItem.url <$> Project.videos p)
  ∧ (∀ v, v ∈ Project.videos p →
          VideoItem.url v
          ∉ App.objectURLs (App.deleteProject true (Project.id p) st))
  ∧ App.objectURLs (App.deleteProject false (Project.id p) st)
    = App.objectURLs st.
Proof.
  intros Hfind.
  assert (App.objectURLs (App.deleteProject true (Project.id p) st)
          = App.objectURLs st ∖ list_to_set (VideoItem.url <$> Project.videos p))
    as Hurls.
  { unfold App.deleteProject. rewrite Hfind.
    case_decide; cbn; apply revokeObjectURLs_fold. }
  split_and!; [done| |done].
  intros v Hv. rewrite Hurls.
  assert (VideoItem.url v ∈ VideoItem.url <$> Project.videos p) as Hin.
  { apply list_elem_of_fmap. by exists v. }
  set_solver.
Qed.

Lemma deleteProject_releases_its_urls_witness :
  App.objectURLs
    (App.deleteProject true (Project.id Sample.projectC) Cases.browsingC)
  = ∅.
Proof.
  destruct (deleteProject_releases_its_urls Cases.browsingC Sample.projectC)
    as (Hurls & _ & _); [reflexivity|].
  rewrite Hurls. vm_compute. reflexivity.
Defined.

(** *** Exporting a selection that is not in the gallery *)

Lemma batch_entries_missing (p : Project.t) (selected : list string)
    (fs : gmap string (option string)) :
  Forall (λ id, App.findItem p id = None) selected →
  foldl (App.addEntry p) fs selected = fs.
Proof.
  revert fs. induction 1 as [|id selected Hid _ IH]; intros; [done|].
  cbn. unfold App.addEntry at 2. by rewrite Hid.
Qed.

(** X10: the selection survives leaving a project and creating another
    one, and the export does not check it against the gallery: when none
    of the selected ids is a capture of the open project, the export still
    offers an archive, with its folder and no entry in it. *)
Theorem batch_export_of_foreign_selection
  (st : App.State) (p : Project.t) (now : Z) :
  App.activeProject st = Some p →
  JS.StrSet.size (App.selectedGalleryIds st) ≠ 0%nat →
  Forall (λ id, App.findItem p id = None) (App.selectedGalleryIds st) →
  (App.downloadBatchZip true now st).2
  = Some (App.mkBatch
            (App.folderName p +:+ "_batch_" +:+ pretty now +:+ ".zip")
            (App.mkArchive (App.folderName p +:+ "_frames") ∅))
  ∧ App.selectedGalleryIds (App.exitProject st) = App.selectedGalleryIds st
  ∧ (∀ uuid t_created t_modified,
       App.selectedGalleryIds
         (App.confirmCreateProject uuid t_created t_modified st)
       = App.selectedGalleryIds st)
  ∧ (∀ projectId, App.selectedGalleryIds (App.openProject projectId st) = []).
Proof.
  intros Hp Hsize Hmissing. split_and!; [|done| |done].
  - unfold App.downloadBatchZip. rewrite Hp, decide_False by done. cbn.
    unfold App.batchArchive. by rewrite batch_entries_missing.
  - intros. unfold App.confirmCreateProject. by case_decide.
Qed.

Lemma batch_export_of_foreign_selection_witness :
  App.selectedGalleryIds Cases.staleSelection
  = [GalleryItem.id Sample.item2; GalleryItem.id Sample.item1]
  ∧ (App.downloadBatchZip true 9000 Cases.staleSelection).2
    = Some (App.mkBatch "demo_b_batch_9000.zip"
              (App.mkArchive "demo_b_frames" ∅)).
Proof.
  split; [reflexivity|].
  destruct (batch_export_of_foreign_selection Cases.staleSelection
              Sample.projectB 9000) as (Hzip & _);
    [reflexivity|discriminate| |].
  - repeat (constructor; [reflexivity|]). constructor.
  - rewrite Hzip. vm_compute. reflexivity.
Defined.

(** *** Moving a video back *)

Lemma swap_back {A} (l : list A) (i : nat) (a b : A) :
  l !! i = Some a → l !! S i = Some b →
  <[S i := b]> (<[i := a]> (<[S i := a]> (<[i := b]> l))) = l.
Proof.
  intros Ha Hb.
  rewrite (list_insert_insert_ne _ i (S i)) by lia.
  rewrite list_insert_insert_eq, list_insert_insert_eq.
  rewrite (list_insert_id l i a) by done. by apply list_insert_id.
Qed.

(** X11: moving the video at [index] to the right and then the video at
    [index + 1] to the left gives back the list, and so does the left move
    followed by the right move. *)
Theorem moveVideo_there_and_back (videos : list VideoItem.t) (index : nat) :
  (S index < length videos)%nat →
  TimelineEditor.moveVideo
    (TimelineEditor.moveVideo (Some <$> videos) index TimelineEditor.Right)
    (S index) TimelineEditor.Left
  = Some <$> videos
  ∧ TimelineEditor.moveVideo
      (TimelineEditor.moveVideo (Some <$> videos) (S index)
         TimelineEditor.Left)
      index TimelineEditor.Right
    = Some <$> videos.
Proof.
  intros Hlt.
  destruct (lookup_lt_is_Some_2 videos index) as [a Ha]; [lia|].
  destruct (lookup_lt_is_Some_2 videos (S index)) as [b Hb]; [lia|].
  assert (<[S index := a]> (<[index := b]> videos) !! index = Some b) as Hb'.
  { rewrite list_lookup_insert_ne by lia.
    apply list_lookup_insert_eq. by eapply lookup_lt_Some. }
  assert (<[S index := a]> (<[index := b]> videos) !! S index = Some a)
    as Ha'.
  { apply list_lookup_insert_eq. rewrite length_insert. lia. }
  split.
  - rewrite (moveVideo_right videos index a b) by done.
    rewrite (moveVideo_left _ index b a) by done.
    by rewrite swap_back.
  - rewrite (moveVideo_left videos index a b) by done.
    rewrite (moveVideo_right _ index b a) by done.
    by rewrite swap_back.
Qed.

Lemma moveVideo_there_and_back_witness :
  TimelineEditor.moveVideo
    (TimelineEditor.moveVideo (Some <$> Cases.threeVideos) 1
       TimelineEditor.Right)
    2 TimelineEditor.Left
  = Some <$> Cases.threeVideos.
Proof.
  apply (moveVideo_there_and_back Cases.threeVideos 1). cbn. lia.
Defined.

(** *** Bounds of the computed times and scales *)

Lemma SFcompare_Lt_asym f1 f2 :
  SpecFloat.SFcompare f1 f2 = Some Lt → SpecFloat.SFcompare f2 f1 = Some Gt.
Proof.
  destruct f1 as [s1|s1| |s1 m1 e1], f2 as [s2|s2| |s2 m2 e2]; cbn;
    try discriminate; try (by destruct s1); try (by destruct s2);
    try (by destruct s1, s2).
  destruct s1, s2; try done.
  - rewrite (Z.compare_antisym e1 e2).
    destruct (e1 ?= e2)%Z; cbn; try done.
    change (Pos.compare_cont Eq m2 m1) with (m2 ?= m1)%positive.
    change (Pos.compare_cont Eq m1 m2) with (m1 ?= m2)%positive.
    rewrite (Pos.compare_antisym m1 m2). by destruct (m1 ?= m2)%positive.
  - rewrite (Z.compare_antisym e1 e2).
    destruct (e1 ?= e2)%Z; cbn; try done.
    change (Pos.compare_cont Eq m2 m1) with (m2 ?= m1)%positive.
    change (Pos.compare_cont Eq m1 m2) with (m1 ?= m2)%positive.
    rewrite (Pos.compare_antisym m1 m2). by destruct (m1 ?= m2)%positive.
Qed.

(** [x < y] excludes [y < x] on binary64 numbers. *)
Lemma ltb_asym (x y : float) : ltb x y = true → ltb y x = false.
Proof.
  rewrite !FloatAxioms.ltb_spec. unfold SpecFloat.SFltb. intros H.
  destruct (SpecFloat.SFcompare (FloatOps.Prim2SF x) (FloatOps.Prim2SF y))
    as [[]|] eqn:E; try discriminate.
  by rewrite (SFcompare_Lt_asym _ _ E).
Qed.

Lemma Math_max_not_below (x b : float) :
  is_nan b = false → ltb b b = false → ltb nan b = false →
  ltb (JS.Math_max x b) b = false.
Proof.
  intros Hb Hbb Hnan. unfold JS.Math_max. rewrite Hb, orb_false_r.
  destruct (is_nan x); [done|].
  destruct (ltb x b) eqn:Hxb; [done|].
  destruct (ltb b x); [done|]. by destruct (get_sign x).
Qed.

Lemma Math_min_not_above (x b : float) :
  is_nan b = false → ltb b b = false → ltb b nan = false →
  ltb b (JS.Math_min x b) = false.
Proof.
  intros Hb Hbb Hnan. unfold JS.Math_min. rewrite Hb, orb_false_r.
  destruct (is_nan x); [done|].
  destruct (ltb x b) eqn:Hxb; [by apply ltb_asym|].
  destruct (ltb b x) eqn:Hbx; [done|]. by destruct (get_sign x).
Qed.

(** X12: [seekToEnd] asks for [Math.max(0, duration - 0.1)].  When the
    element accepts that time, the element lands on it with its duration
    unchanged, the time is not before 0, and it is the very time at which
    the video card and the frame processor ask for their last frame.
    When it does not (the duration is [NaN], as before the metadata is
    there, or [Infinity]), the assignment throws and no seek is made,
    neither here nor for the last frame of the card and of the
    processor.  [seekToStart] always lands on 0. *)
Theorem seekToEnd_is_the_safe_end
  (frame : Media.Video → string) (video : Media.Video)
  (st : FrameProcessor.State) (th : TimelineEditor.Thumbs) :
  let time := JS.Math_max 0 (Media.duration video - 0.1)%float in
  VideoProcessor.seekToEnd video
  = (if is_finite time then Some (Media.mkVideo (Media.duration video) time)
     else None)
  ∧ (∀ v, VideoProcessor.seekToEnd video = Some v →
          ltb (Media.currentTime v) 0 = false
          ∧ is_finite (Media.currentTime v) = true
          ∧ Media.duration v = Media.duration video
          ∧ last (Media.requested
                    (TimelineEditor.generateThumbs frame video th).2)
            = Some (Media.currentTime v)
          ∧ (Media.requested
               <$> (FrameProcessor.processAutomaticFrames frame (Some video)
                      true st).2) ≫= last
            = Some (Media.currentTime v))
  ∧ (VideoProcessor.seekToEnd video = None →
     Media.requested (TimelineEditor.generateThumbs frame video th).2
     = [0.1%float]
     ∧ Media.requested
         <$> (FrameProcessor.processAutomaticFrames frame (Some video) true
                st).2
       = Some [0%float])
  ∧ (is_nan (Media.duration video) = true ∨ Media.duration video = infinity →
     VideoProcessor.seekToEnd video = None)
  ∧ VideoProcessor.seekToStart video
    = Some (Media.mkVideo (Media.duration video) 0).
Proof.
  intros time.
  unfold VideoProcessor.seekToEnd, TimelineEditor.generateThumbs,
    FrameProcessor.processAutomaticFrames, TimelineEditor.extract,
    FrameProcessor.captureAtTime, Media.seek.
  cbn. fold time. split_and!; [done| | | |done].
  - intros v Hv. destruct (is_finite time) eqn:Hfinite; [|done].
    injection Hv as <-. cbn. split_and!; try done.
    subst time. rewrite Math_max_zero.
    destruct (is_nan _); [done|].
    destruct (ltb 0 _) eqn:Hpos; [by apply ltb_asym|done].
  - by destruct (is_finite time).
  - intros Hd. subst time. by rewrite safe_end_of_endless.
Qed.

(** X13: the zoom buttons keep the scale of the timeline canvas within
    its limits: after a zoom in the scale is not above 3, after a zoom out
    it is not below 0.2, whatever the scale was; neither moves the canvas,
    and the reset button restores scale 1 at the origin. *)
Theorem zoom_respects_its_limits (v : TimelineEditor.Viewport) :
  ltb 3 (TimelineEditor.scale (TimelineEditor.zoomIn v)) = false
  ∧ ltb (TimelineEditor.scale (TimelineEditor.zoomOut v)) 0.2 = false
  ∧ TimelineEditor.position (TimelineEditor.zoomIn v)
    = TimelineEditor.position v
  ∧ TimelineEditor.position (TimelineEditor.zoomOut v)
    = TimelineEditor.position v
  ∧ TimelineEditor.resetView v = TimelineEditor.initialViewport
  ∧ TimelineEditor.scale
      (TimelineEditor.zoomOut (TimelineEditor.zoomIn
                                 TimelineEditor.initialViewport))
    = 1%float.
Proof.
  split_and!; try done.
  - by apply Math_min_not_above.
  - by apply Math_max_not_below.
Qed.

(** *** Capturing in the single-video processor *)

(** X14: [captureFrame] does nothing without the video element or the
    canvas.  Otherwise it never leaves the processing flag set, and it
    ends in one of three ways.  The captured image is stored, the error
    is cleared and the parent's callback, if there is one, was called
    with that same image and returned.  Or the callback threw: the new
    image is stored all the same, and the error message is set on top of
    it.  Or (no 2D context, or drawing and encoding throw) the error
    message is set, the image captured before is kept and the parent
    hears nothing.  So a cleared error always comes with a new image, but
    a new image may come with the error; and the callback is never called
    with anything but the image that is stored. *)
Theorem captureFrame_succeeds_or_reports
  (videoRef : option Media.Video) (canvas context : bool)
  (encoded : option string) (onFrameCaptured : option (string → bool))
  (st : VideoProcessor.State) :
  let result :=
    VideoProcessor.captureFrame videoRef canvas context encoded
      onFrameCaptured st in
  (videoRef = None ∨ canvas = false → result = (st, None))
  ∧ (is_Some videoRef → canvas = true →
     VideoProcessor.isProcessing result.1 = false
     ∧ ((∃ dataUrl,
           context = true ∧ encoded = Some dataUrl
           ∧ (∀ callback, onFrameCaptured = Some callback →
                          callback dataUrl = true)
           ∧ result.2 = (λ _, dataUrl) <$> onFrameCaptured
           ∧ VideoProcessor.capturedImage result.1 = Some dataUrl
           ∧ VideoProcessor.error result.1 = None)
        ∨ (∃ dataUrl callback,
             context = true ∧ encoded = Some dataUrl
             ∧ onFrameCaptured = Some callback ∧ callback dataUrl = false
             ∧ result.2 = Some dataUrl
             ∧ VideoProcessor.capturedImage result.1 = Some dataUrl
             ∧ VideoProcessor.error result.1
               = Some VideoProcessor.captureFailed)
        ∨ ((context = false ∨ encoded = None)
           ∧ result.2 = None
           ∧ VideoProcessor.capturedImage result.1
             = VideoProcessor.capturedImage st
           ∧ VideoProcessor.error result.1
             = Some VideoProcessor.captureFailed))
     ∧ (VideoProcessor.error result.1 = None →
        context = true ∧ is_Some encoded
        ∧ VideoProcessor.capturedImage result.1 = encoded)
     ∧ (∀ dataUrl, result.2 = Some dataUrl →
                   VideoProcessor.capturedImage result.1 = Some dataUrl)).
Proof.
  intros result. subst result. split.
  - intros [->| ->]; [done|]. by destruct videoRef.
  - intros [video ->] ->. cbn.
    destruct context, encoded as [dataUrl|]; cbn.
    + destruct onFrameCaptured as [callback|]; cbn.
      * destruct (callback dataUrl) eqn:Hcall; cbn.
        -- split_and!; [done| |done|by intros ? [= <-]].
           left. exists dataUrl. split_and!; try done.
           by intros ? [= <-].
        -- split_and!; [done| |done|by intros ? [= <-]].
           right. left. by exists dataUrl, callback.
      * split_and!; [done| |done|done].
        left. by exists dataUrl.
    + split_and!; [done| |done|done]. right. right. split_and!; try done.
      by right.
    + split_and!; [done| |done|done]. right. right. split_and!; try done.
      by left.
    + split_and!; [done| |done|done]. right. right. split_and!; try done.
      by left.
Qed.

(** *** Asking for a continuation frame *)

Lemma or_else_not_empty (a b : string) : b ≠ "" → JS.or_else a b ≠ "".
Proof. intros Hb. unfold JS.or_else. by case_decide. Qed.

(** X15: [handleGenerate] does nothing for a blank prompt.  For any other
    prompt, whatever the import, the key and the service do, it ends with
    the loading flag cleared, the prompt untouched, and exactly one of the
    two: a generated image and no error, or no image and a non-empty error
    message.  The image is the data URL of the first part of the first
    candidate that carries inline data. *)
Theorem handleGenerate_ends_with_image_or_error
  (env : FrameExtender.Environment) (st : FrameExtender.State) :
  (JS.trim (FrameExtender.prompt st) = "" →
   FrameExtender.handleGenerate env st = st)
  ∧ (JS.trim (FrameExtender.prompt st) ≠ "" →
     FrameExtender.isLoading (FrameExtender.handleGenerate env st) = false
     ∧ FrameExtender.prompt (FrameExtender.handleGenerate env st)
       = FrameExtender.prompt st
     ∧ ((is_Some
           (FrameExtender.generatedImage (FrameExtender.handleGenerate env st))
         ∧ FrameExtender.error (FrameExtender.handleGenerate env st) = None)
        ∨ (FrameExtender.generatedImage (FrameExtender.handleGenerate env st)
           = None
           ∧ ∃ message,
               FrameExtender.error (FrameExtender.handleGenerate env st)
               = Some message
               ∧ message ≠ ""))
     ∧ (∀ candidate rest c ps data,
          FrameExtender.importError env = None →
          JS.falsy (FrameExtender.apiKey env) = false →
          FrameExtender.reply env
          = inr (FrameExtender.mkResponse (Some (candidate :: rest))) →
          FrameExtender.content candidate = Some c →
          FrameExtender.parts c = Some ps →
          FrameExtender.firstInline ps = Some data →
          FrameExtender.generatedImage (FrameExtender.handleGenerate env st)
          = Some ("data:image/png;base64," +:+ default "undefined" data))).
Proof.
  unfold FrameExtender.handleGenerate. split.
  - intros H. by rewrite decide_True.
  - intros H. rewrite decide_False by done.
    split_and!.
    + by destruct (FrameExtender.attempt env).
    + by destruct (FrameExtender.attempt env).
    + destruct (FrameExtender.attempt env) as [url|message]; cbn.
      * left. split; [by eexists|done].
      * right. split; [done|]. eexists. split; [done|].
        by apply or_else_not_empty.
    + intros candidate rest c ps data Himp Hkey Hreply Hc Hps Hdata.
      unfold FrameExtender.attempt.
      by rewrite Himp, Hkey, Hreply; cbn; rewrite Hc, Hps, Hdata.
Qed.

Lemma handleGenerate_ends_with_image_or_error_witness :
  FrameExtender.handleGenerate Cases.answered Cases.asking
  = FrameExtender.mkState "the camera pulls back"
      (Some "data:image/png;base64,EEEE") false None.
Proof.
  destruct (handleGenerate_ends_with_image_or_error Cases.answered
              Cases.asking) as [_ H].
  destruct H as (_ & _ & _ & Himage); [vm_compute; discriminate|].
  reflexivity.
Defined.

(** *** The drop zone *)

Lemma find_first {A} (f : A → bool) (l : list A) :
  match List.find f l with
  | Some x =>
      ∃ before after,
        l = before ++ x :: after ∧ f x = true
        ∧ Forall (λ y, f y = false) before
  | None => Forall (λ y, f y = false) l
  end.
Proof.
  induction l as [|y l IH]; cbn; [constructor|].
  destruct (f y) eqn:Hy.
  - exists [], l. split_and!; [done|done|constructor].
  - destruct (List.find f l) as [x|].
    + destruct IH as (before & after & -> & Hx & Hb).
      exists (y :: before), after. split_and!; [done|done|by constructor].
    + by constructor.
Qed.

(** X16: a drop selects the first file, in the order of the drop, whose
    type starts with [video/], skipping the files before it; it alerts
    exactly when no dropped file is a video; it always ends the dragging
    state.  The file it selects is the one an import of the same files
    would put first. *)
Theorem handleDrop_selects_the_first_video
  (files : list File.t) (uuids urls : nat → string) :
  (Dropzone.handleDrop files).1 = false
  ∧ match (Dropzone.handleDrop files).2 with
    | Dropzone.Selected file =>
        ∃ before after,
          files = before ++ file :: after
          ∧ App.isVideoFile file = true
          ∧ Forall (λ f, App.isVideoFile f = false) before
    | Dropzone.Alerted => Forall (λ f, App.isVideoFile f = false) files
    | Dropzone.Ignored => False
    end
  ∧ (∀ file,
       (Dropzone.handleDrop files).2 = Dropzone.Selected file
       ↔ head (VideoItem.file <$> App.newVideosOf files uuids urls)
         = Some file).
Proof.
  split; [done|]. unfold Dropzone.handleDrop. cbn [snd].
  pose proof (find_first App.isVideoFile files) as Hfirst.
  unfold App.isVideoFile in Hfirst at 1.
  split.
  - destruct (List.find _ files) as [file|]; exact Hfirst.
  - intros file. rewrite newVideosOf_files. clear Hfirst.
    induction files as [|f files IH]; [split; discriminate|].
    rewrite filter_cons. cbn [List.find]. fold (App.isVideoFile f).
    destruct (App.isVideoFile f) eqn:Hf.
    + rewrite decide_True by done. cbn. split; congruence.
    + rewrite decide_False by congruence. exact IH.
Qed.

(** X17: the file input looks at the first chosen file only: it selects
    that file when it is a video and otherwise does nothing, silently,
    even when a later file is a video; whenever it selects a file, a drop
    of the same files selects the same one. *)
Theorem handleFileInput_reads_the_first_file_only
  (file : File.t) (rest : list File.t) :
  Dropzone.handleFileInput None = Dropzone.Ignored
  ∧ Dropzone.handleFileInput (Some []) = Dropzone.Ignored
  ∧ (App.isVideoFile file = true →
     Dropzone.handleFileInput (Some (file :: rest)) = Dropzone.Selected file)
  ∧ (App.isVideoFile file = false →
     Dropzone.handleFileInput (Some (file :: rest)) = Dropzone.Ignored)
  ∧ (∀ files chosen,
       Dropzone.handleFileInput (Some files) = Dropzone.Selected chosen →
       (Dropzone.handleDrop files).2 = Dropzone.Selected chosen).
Proof.
  unfold Dropzone.handleFileInput, Dropzone.handleDrop, App.isVideoFile.
  split_and!; try done.
  - by intros ->.
  - by intros ->.
  - intros [|f files] chosen; [done|]. cbn.
    destruct (JS.startsWith _ _); [done|discriminate].
Qed.

(** *** File names *)

Lemma lastIndexOf_from_absent c (l : list ascii) i acc :
  c ∉ l → JS.lastIndexOf_from c l i acc = acc.
Proof.
  revert i acc. induction l as [|a l IH]; intros i acc Hc; [done|].
  apply not_elem_of_cons in Hc as [Hne Hc]. cbn.
  rewrite decide_False by done. by apply IH.
Qed.

Lemma lastIndexOf_from_last c (l1 l2 : list ascii) i acc :
  c ∉ l2 →
  JS.lastIndexOf_from c (l1 ++ c :: l2) i acc = i + Z.of_nat (length l1).
Proof.
  intros Hc. revert i acc. induction l1 as [|a l1 IH]; intros i acc; cbn.
  - rewrite decide_True by done. rewrite lastIndexOf_from_absent by done. lia.
  - rewrite IH. lia.
Qed.

Lemma str_chars (s : string) : JS.str (JS.chars s) = s.
Proof. apply String.string_of_list_ascii_of_string. Qed.

Lemma substring_prefix (l1 l2 : list ascii) :
  JS.substring 0 (Z.of_nat (length l1)) (JS.str (l1 ++ l2)) = JS.str l1.
Proof.
  unfold JS.substring, JS.clamp, JS.chars, JS.str.
  rewrite String.list_ascii_of_string_of_list_ascii, length_app.
  replace (Z.to_nat (Z.max _ _ - Z.min _ _)) with (length l1) by lia.
  replace (Z.to_nat (Z.min _ _)) with 0%nat by lia.
  by rewrite drop_0, take_app_length.
Qed.

Lemma substring_none (end_ : Z) (s : string) :
  end_ ≤ 0 → JS.substring 0 end_ s = "".
Proof.
  intros H. unfold JS.substring, JS.clamp.
  replace (Z.to_nat (_ - _)) with 0%nat by lia. by rewrite take_0.
Qed.

Lemma nameOnly_of_stem_and_extension (stem ext : string) :
  "."%char ∉ JS.chars ext → stem ≠ "" →
  App.nameOnly (stem +:+ "." +:+ ext) = stem.
Proof.
  intros Hext Hstem. unfold App.nameOnly, JS.lastIndexOf.
  rewrite chars_append.
  change (JS.chars ("." +:+ ext)) with ("."%char :: JS.chars ext).
  rewrite lastIndexOf_from_last by done. rewrite Z.add_0_l.
  rewrite <- (str_chars (stem +:+ "." +:+ ext)) at 1.
  rewrite chars_append, substring_prefix, str_chars.
  unfold JS.or_else. by rewrite decide_False.
Qed.

(** X18: the stem used in every download name.  For a name made of a
    non-empty stem, a dot and an extension without dots, it is the stem
    (only the last extension goes); a name without a dot, and a name whose
    only dot comes first, are kept whole; it is never empty for a
    non-empty name.  So the frame processor saves [stem_suffix.png] and a
    gallery download is named [stem_frame_type_xxxx.png]. *)
Theorem nameOnly_strips_the_last_extension (stem ext : string) :
  "."%char ∉ JS.chars ext →
  (stem ≠ "" → App.nameOnly (stem +:+ "." +:+ ext) = stem)
  ∧ App.nameOnly ext = ext
  ∧ App.nameOnly ("." +:+ ext) = "." +:+ ext
  ∧ (∀ name, name ≠ "" → App.nameOnly name ≠ "")
  ∧ (stem ≠ "" →
     ∀ dataUrl suffix,
       FrameProcessor.download (stem +:+ "." +:+ ext) dataUrl suffix
       = App.mkLink dataUrl (stem +:+ "_" +:+ suffix +:+ ".png"))
  ∧ (stem ≠ "" →
     ∀ id src type createdAt,
       App.downloadGalleryItem
         (GalleryItem.mk id src type (stem +:+ "." +:+ ext) createdAt)
       = App.mkLink src
           (stem +:+ "_frame_" +:+ App.typeName type +:+ "_"
              +:+ JS.slice 0 4 id +:+ ".png")).
Proof.
  intros Hext. split_and!.
  - by apply nameOnly_of_stem_and_extension.
  - unfold App.nameOnly, JS.lastIndexOf.
    rewrite lastIndexOf_from_absent by done.
    by rewrite substring_none.
  - unfold App.nameOnly, JS.lastIndexOf.
    change (JS.chars ("." +:+ ext)) with ([] ++ "."%char :: JS.chars ext).
    rewrite lastIndexOf_from_last by done.
    by rewrite substring_none.
  - intros name Hname. unfold App.nameOnly. by apply or_else_not_empty.
  - intros Hstem dataUrl suffix. unfold FrameProcessor.download.
    fold (App.nameOnly (stem +:+ "." +:+ ext)).
    by rewrite nameOnly_of_stem_and_extension.
  - intros Hstem id src type createdAt. unfold App.downloadGalleryItem. cbn.
    by rewrite nameOnly_of_stem_and_extension.
Qed.

Lemma nameOnly_strips_the_last_extension_witness :
  App.nameOnly ("holiday.final" +:+ "." +:+ "mp4") = "holiday.final"
  ∧ App.nameOnly "mp4" = "mp4"
  ∧ App.nameOnly ("." +:+ "mp4") = ".mp4".
Proof.
  destruct (nameOnly_strips_the_last_extension "holiday.final" "mp4")
    as (Hstem & Hplain & Hdot & _).
  - cbn. rewrite !elem_of_cons, elem_of_nil.
    intros [H|[H|[H|[]]]]; discriminate H.
  - split_and!; [by apply Hstem|exact Hplain|exact Hdot].
Defined.

Lemma types_apart (t1 t2 : GalleryType) (l1 l2 : list ascii) :
  l1 ++ JS.chars (App.typeName t1) = l2 ++ JS.chars (App.typeName t2) →
  t1 = t2.
Proof.
  intros H. apply (f_equal (λ l, take 5 (rev l))) in H.
  rewrite !rev_app_distr in H. by destruct t1, t2.
Qed.

(** X19: the entry names of the batch export tell apart exactly the stem
    of the clip name, the type and the first four characters of the id:
    for two captures with ids of at least four characters (every UUID),
    the names are equal if and only if these three agree. *)
Theorem fileName_equal_iff_stem_type_prefix (i1 i2 : GalleryItem.t) :
  (4 ≤ length (JS.chars (GalleryItem.id i1)))%nat →
  (4 ≤ length (JS.chars (GalleryItem.id i2)))%nat →
  App.fileName i1 = App.fileName i2
  ↔ App.nameOnly (GalleryItem.videoName i1)
    = App.nameOnly (GalleryItem.videoName i2)
    ∧ GalleryItem.type i1 = GalleryItem.type i2
    ∧ JS.slice 0 4 (GalleryItem.id i1) = JS.slice 0 4 (GalleryItem.id i2).
Proof.
  intros H1 H2. split.
  - intros Heq. apply (f_equal JS.chars) in Heq.
    unfold App.fileName in Heq. rewrite !chars_append in Heq.
    rewrite !(assoc_L (++)) in Heq.
    apply app_inj_2 in Heq as [Heq _]; [|done].
    apply app_inj_2 in Heq as [Heq Hprefix];
      [|by rewrite !slice_0_4_length].
    apply app_inj_2 in Heq as [Heq _]; [|done].
    apply types_apart in Heq as Htype. rewrite Htype in Heq.
    apply app_inv_tail in Heq. apply app_inj_2 in Heq as [Hstem _]; [|done].
    split_and!; [by apply chars_inj|done|by apply chars_inj].
  - intros (Hstem & Htype & Hprefix). unfold App.fileName.
    by rewrite Hstem, Htype, Hprefix.
Qed.

Lemma fileName_equal_iff_stem_type_prefix_witness :
  App.fileName Sample.item1 = App.fileName Sample.item2
  ∧ App.fileName Sample.item1 ≠ App.fileName Sample.item3.
Proof.
  split.
  - apply (fileName_equal_iff_stem_type_prefix Sample.item1 Sample.item2);
      [cbn; lia|cbn; lia|]. by vm_compute.
  - intros Heq.
    apply (fileName_equal_iff_stem_type_prefix Sample.item1 Sample.item3)
      in Heq as (_ & Htype & _); [discriminate Htype|cbn; lia|cbn; lia].
Defined.

(** *** Stamps along a run *)

(** X20: along every run of the interface whose clock readings never go
    back, each project of the store was created no later than it was last
    modified, and no stamp is ahead of the clock; the next action, taken
    with readings that follow, keeps it so. *)
Theorem stamps_follow_the_clock (t : Z) (st : App.State) :
  UI.ticking t st →
  stampedBy t st
  ∧ (∀ e t', UI.inOrder t (UI.readings e ++ [t']) →
             stampedBy t' (UI.handle e st)).
Proof.
  intros Hrun. apply ticking_stamps in Hrun as Hst. split; [done|].
  intros e t' Hord. by apply (handle_stamps e st t).
Qed.

Lemma stamps_follow_the_clock_witness :
  stampedBy 2000
    (foldl (λ st e, UI.handle e st) App.initial Cases.createAndCapture)
  ∧ Project.lastModified
      <$> App.projects
            (foldl (λ st e, UI.handle e st) App.initial Cases.createAndCapture)
    = [2000].
Proof.
  split; [|reflexivity].
  refine (proj1 (stamps_follow_the_clock 2000 _ _)).
  cbn [foldl Cases.createAndCapture].
  apply (UI.ticking_handle _ _ 1000); [|cbn; lia].
  apply (UI.ticking_handle _ _ 0); [|cbn; lia].
  apply (UI.ticking_handle _ _ 0); [|cbn; lia].
  apply UI.ticking_initial.
Defined.

(** *** Updating a video *)

(** X21: with a project open, [handleUpdateVideo] rewrites the videos
    whose [id] is the given one and leaves every other video, the length
    and the order of the list, the gallery and the object URLs as they
    are.  When no video carries the [id] the list is unchanged, yet the
    project is stamped as modified all the same.  An update that sets
    neither [id] nor [url] (a rename, a crop) keeps the ids and the URLs
    of all videos. *)
Theorem handleUpdateVideo_touches_matching_videos_only
  (st : App.State) (p : Project.t) (videoId : string)
  (updates : App.VideoUpdates) (now : Z) :
  JS.falsy (App.activeProjectId st) = false →
  App.activeProject st = Some p →
  ∃ p',
    App.activeProject (App.handleUpdateVideo videoId updates now st) = Some p'
    ∧ length (Project.videos p') = length (Project.videos p)
    ∧ (∀ (i : nat) v,
         Project.videos p !! i = Some v →
         Project.videos p' !! i
         = Some (if decide (VideoItem.id v = videoId)
                 then App.spread v updates else v))
    ∧ ((videoId ∉ VideoItem.id <$> Project.videos p) →
       Project.videos p' = Project.videos p)
    ∧ Project.lastModified p' = now
    ∧ Project.galleryItems p' = Project.galleryItems p
    ∧ (App.u_id updates = None → App.u_url updates = None →
       VideoItem.id <$> Project.videos p' = VideoItem.id <$> Project.videos p
       ∧ VideoItem.url <$> Project.videos p'
         = VideoItem.url <$> Project.videos p)
    ∧ App.objectURLs (App.handleUpdateVideo videoId updates now st)
      = App.objectURLs st.
Proof.
  intros Hf Hp.
  exists (Project.with_videos
            ((λ v, if decide (VideoItem.id v = videoId)
                   then App.spread v updates else v)
               <$> Project.videos p)
            now p).
  unfold App.handleUpdateVideo at 1.
  rewrite updateActiveProjectVideos_active, Hp by done.
  cbn [Project.videos Project.galleryItems Project.with_videos
       Project.lastModified].
  split_and!; [done|apply length_fmap| | |done|done| |].
  - intros i v Hv. by rewrite list_lookup_fmap, Hv.
  - intros Hnot. rewrite <- (list_fmap_id (Project.videos p)) at 2.
    apply list_fmap_ext. intros i v Hv. cbn.
    rewrite decide_False; [done|]. intros Hid. apply Hnot.
    apply list_elem_of_fmap. exists v. split; [done|].
    by apply list_elem_of_lookup_2 in Hv.
  - intros Hid Hurl. rewrite <- !list_fmap_compose.
    split; apply list_fmap_ext; intros i v _; cbn; case_decide; try done;
      unfold App.spread; cbn; by rewrite ?Hid, ?Hurl.
  - unfold App.handleUpdateVideo, App.updateActiveProjectVideos.
    by rewrite Hf.
Qed.

Lemma handleUpdateVideo_touches_matching_videos_only_witness :
  ∃ p',
    App.activeProject
      (App.handleUpdateVideo "no-such-video"
         (App.mkUpdates None None None None
            (Some (Crop.mk 2%float 0%float 0%float)))
         5000 Cases.browsingC) = Some p'
    ∧ Project.videos p' = [Sample.video1; Sample.video2]
    ∧ Project.lastModified p' = 5000.
Proof.
  destruct (handleUpdateVideo_touches_matching_videos_only Cases.browsingC
              Sample.projectC "no-such-video"
              (App.mkUpdates None None None None
                 (Some (Crop.mk 2%float 0%float 0%float)))
              5000)
    as (p' & Hp' & _ & _ & Hsame & Hstamp & _); [reflexivity|reflexivity|].
  exists p'. split_and!; [exact Hp'| |exact Hstamp].
  rewrite Hsame; [reflexivity|]. cbn.
  rewrite !elem_of_cons, elem_of_nil. intros [H|[H|[]]]; discriminate H.
Defined.

(** *** The player controls of the single-video processor *)

(** X22: the player controls of the single-video processor never touch
    the capture: [togglePlay] and [handleLoadedMetadata] keep the captured
    image and the error, and a capture keeps the duration, the position
    and the playing flag.  [togglePlay] twice gives back the state it
    started from, and without the video element it changes nothing.
    [handleLoadedMetadata] records the element's duration and then does
    what [seekToEnd] does: it seeks to [Math.max(0, duration - 0.1)] when
    the element accepts that time, and otherwise throws with the duration
    recorded and the element where it was; a second [loadedmetadata] on
    the element it leaves changes nothing more. *)
Theorem player_controls_keep_the_capture
  (videoRef : option Media.Video) (video : Media.Video) (canvas context : bool)
  (encoded : option string) (onFrameCaptured : option (string → bool))
  (st : VideoProcessor.State) :
  let time := JS.Math_max 0 (Media.duration video - 0.1)%float in
  let loaded := VideoProcessor.handleLoadedMetadata video st in
  let captured :=
    VideoProcessor.captureFrame videoRef canvas context encoded
      onFrameCaptured st in
  VideoProcessor.capturedImage (VideoProcessor.togglePlay videoRef st)
  = VideoProcessor.capturedImage st
  ∧ VideoProcessor.error (VideoProcessor.togglePlay videoRef st)
    = VideoProcessor.error st
  ∧ VideoProcessor.togglePlay videoRef (VideoProcessor.togglePlay videoRef st)
    = st
  ∧ VideoProcessor.togglePlay None st = st
  ∧ VideoProcessor.isPlaying (VideoProcessor.togglePlay (Some video) st)
    = negb (VideoProcessor.isPlaying st)
  ∧ VideoProcessor.capturedImage loaded.1 = VideoProcessor.capturedImage st
  ∧ VideoProcessor.error loaded.1 = VideoProcessor.error st
  ∧ VideoProcessor.isPlaying loaded.1 = VideoProcessor.isPlaying st
  ∧ VideoProcessor.videoDuration loaded.1 = Media.duration video
  ∧ loaded.2 = VideoProcessor.seekToEnd video
  ∧ loaded.2
    = (if is_finite time then Some (Media.mkVideo (Media.duration video) time)
       else None)
  ∧ VideoProcessor.handleLoadedMetadata (default video loaded.2) loaded.1
    = loaded
  ∧ VideoProcessor.videoDuration captured.1 = VideoProcessor.videoDuration st
  ∧ VideoProcessor.currentTime captured.1 = VideoProcessor.currentTime st
  ∧ VideoProcessor.isPlaying captured.1 = VideoProcessor.isPlaying st.
Proof.
  intros time loaded captured. subst loaded captured.
  destruct st as [image processing err duration position playing].
  split_and!; try by destruct videoRef.
  - destruct videoRef; [|done]. cbn. by rewrite negb_involutive.
  - unfold VideoProcessor.handleLoadedMetadata, VideoProcessor.seekToEnd,
      Media.seek. cbn. fold time.
    destruct (is_finite time) eqn:Hfinite; cbn; fold time; by rewrite ?Hfinite.
  - destruct videoRef; [|done]. cbn. destruct canvas; [|done]. cbn.
    destruct context, encoded, onFrameCaptured as [callback|]; cbn; try done.
    by destruct (callback _).
  - destruct videoRef; [|done]. cbn. destruct canvas; [|done]. cbn.
    destruct context, encoded, onFrameCaptured as [callback|]; cbn; try done.
    by destruct (callback _).
  - destruct videoRef; [|done]. cbn. destruct canvas; [|done]. cbn.
    destruct context, encoded, onFrameCaptured as [callback|]; cbn; try done.
    by destruct (callback _).
Qed.
